(** * Microscope image quality: the Miq model and its ranked probability score

    A shallow embedding of [quality/miq.py] and of the TensorFlow operations
    it calls, followed by the properties of [ranked_probability_score],
    [add_loss] and [miq_model].

    Numbers.  Tensor elements live in an arbitrary real field [R]
    (instantiated with the rationals [rat] in the examples): arithmetic is
    exact.  Rounding of floating-point operations, NaN and infinities, and
    wrap-around of fixed-width integers are outside this model.  The dtype
    of a tensor is kept as a tag, because the code branches on it and
    TensorFlow refuses to subtract tensors of different dtypes. *)

From HB Require Import structures.
From Stdlib Require Import String Ascii DecimalString.
From mathcomp Require Import ssreflect ssrfun ssrbool eqtype ssrnat div seq.
From mathcomp Require Import choice fintype bigop order ssralg ssrnum ssrint rat.
From mathcomp Require Import ring_tactic arithmetic_tactic.

Set Implicit Arguments.
Unset Strict Implicit.
Unset Printing Implicit Defensive.

Import GRing.Theory Num.Theory Order.Theory.
Local Open Scope ring_scope.

(** ** Python exceptions and results *)

Inductive exn : Type :=
  | ValueError of string
  | TypeError of string
  | InvalidArgumentError of string.

Inductive result (A : Type) : Type :=
  | Ok of A
  | Raise of exn.

Arguments Ok {A} _.
Arguments Raise {A} _.

Definition rbind {A B : Type} (m : result A) (k : A -> result B) : result B :=
  match m with
  | Ok a => k a
  | Raise e => Raise e
  end.

Notation "x <-- m ;; k" := (rbind m (fun x => k))
  (at level 100, m at next level, right associativity).

Definition is_ok {A : Type} (m : result A) : bool :=
  if m is Ok _ then true else false.

(** Python's ['%d' % n] for an integer [n]. *)
Definition string_of_nat (n : nat) : string :=
  NilEmpty.string_of_uint (Nat.to_uint n).

Definition string_of_int (z : int) : string :=
  match z with
  | Posz n => string_of_nat n
  | Negz n => String "-" (string_of_nat n.+1)
  end.

(** ** TensorFlow: dtypes and static shapes *)

Module tf.

(** The signed numeric dtypes. *)
Inductive DType : Type :=
  | float16 | float32 | float64
  | int8 | int16 | int32 | int64.

Definition DType_code (d : DType) : nat :=
  match d with
  | float16 => 0 | float32 => 1 | float64 => 2
  | int8 => 3 | int16 => 4 | int32 => 5 | int64 => 6
  end%N.

Definition DType_eqb (a b : DType) : bool := (DType_code a == DType_code b)%N.

Definition is_floating (d : DType) : bool :=
  match d with
  | float16 | float32 | float64 => true
  | _ => false
  end.

Definition is_integer (d : DType) : bool :=
  match d with
  | int8 | int16 | int32 | int64 => true
  | _ => false
  end.

(** [Dimension]: a known size or [None]; [TensorShape]: a list of dimensions,
    or [None] when even the rank is unknown. *)
Definition Dimension : Type := option nat.
Definition TensorShape : Type := option (seq Dimension).

(** [Dimension.is_compatible_with]: two dimensions are compatible unless both
    are known and differ. *)
Definition dim_is_compatible_with (a b : Dimension) : bool :=
  match a, b with
  | Some x, Some y => (x == y)%N
  | _, _ => true
  end.

(** [TensorShape.is_compatible_with]: an unknown shape is compatible with
    everything; known ranks must agree and the dimensions be pairwise
    compatible. *)
Definition is_compatible_with (s1 s2 : TensorShape) : bool :=
  match s1, s2 with
  | Some d1, Some d2 =>
      (size d1 == size d2)%N &&
      all (fun xy => dim_is_compatible_with xy.1 xy.2) (zip d1 d2)
  | _, _ => true
  end.

(** A fully defined static shape. *)
Definition known_shape (sh : seq nat) : TensorShape := Some (map Some sh).

(** [conforms ts sh]: the run-time shape [sh] is an instance of the static
    shape [ts]. *)
Definition conforms (ts : TensorShape) (sh : seq nat) : bool :=
  is_compatible_with ts (known_shape sh).

(** Python's index normalisation for an axis argument: [-rank <= axis < rank],
    negative values counting from the end. *)
Definition normalize_axis (rank : nat) (axis : int) : option nat :=
  match axis with
  | Posz n => if (n < rank)%N then Some n else None
  | Negz n => if (n < rank)%N then Some (rank - n.+1)%N else None
  end.

(** Static shape of an element-wise binary operation (broadcasting aligned on
    the trailing dimensions); [None] when the two static shapes can be seen to
    be incompatible. *)
Definition dim_broadcast (a b : Dimension) : option Dimension :=
  match a, b with
  | Some x, Some y =>
      if (x == 1)%N then Some (Some y)
      else if (y == 1)%N then Some (Some x)
      else if (x == y)%N then Some (Some x) else None
  | Some x, None => Some (if (x == 1)%N then None else Some x)
  | None, Some y => Some (if (y == 1)%N then None else Some y)
  | None, None => Some None
  end.

Fixpoint dims_broadcast (d1 d2 : seq Dimension) : option (seq Dimension) :=
  match d1, d2 with
  | a :: d1', b :: d2' =>
      if dim_broadcast a b is Some c
      then omap (cons c) (dims_broadcast d1' d2') else None
  | _, _ => Some [::]
  end.

Definition pad_dims (n : nat) (d : seq Dimension) : seq Dimension :=
  nseq (n - size d) (Some 1%N) ++ d.

Definition broadcast_shape (s1 s2 : TensorShape) : option TensorShape :=
  match s1, s2 with
  | Some d1, Some d2 =>
      let n := maxn (size d1) (size d2) in
      omap Some (dims_broadcast (pad_dims n d1) (pad_dims n d2))
  | _, _ => Some None
  end.

(** Static shape after reducing away dimension [axis]. *)
Definition remove_axis (axis : nat) (s : TensorShape) : TensorShape :=
  omap (fun d => take axis d ++ drop axis.+1 d) s.

(** The layers of [tf.contrib.slim] that a model adds to the graph, with the
    arguments they were called with. *)
Inductive padding : Type := SAME | VALID.

Inductive layer : Type :=
  | conv2d_layer of string & nat & nat * nat & padding & nat
      (* scope, num_outputs, kernel_size, padding, rate *)
  | max_pool2d_layer of string & nat * nat & nat
      (* scope, kernel_size, stride *)
  | flatten_layer
  | fully_connected_layer of string & nat & bool
      (* scope, num_outputs, whether the Relu activation is kept *)
  | dropout_layer of string & rat & bool.
      (* scope, keep_prob, is_training *)

(** ** TensorFlow: values *)

Section Values.

Variable R : realFieldType.

(** The value of a tensor: a scalar (rank 0) or the list of its sub-arrays
    along the outermost axis. *)
Inductive ndarray : Type :=
  | Scalar of R
  | Array of seq ndarray.

(** [has_shape sh v]: [v] is rectangular, of shape [sh].  An empty [Array]
    stands for the tensor of shape [[0]]: a shape with a dimension of size 0
    before its last one has no value of this type. *)
Fixpoint has_shape (sh : seq nat) (v : ndarray) : bool :=
  match sh, v with
  | [::], Scalar _ => true
  | n :: sh', Array xs =>
      [&& (size xs == n)%N, all (has_shape sh') xs & (0 < n)%N || nilp sh']
  | _, _ => false
  end.

Fixpoint nd_rank (v : ndarray) : nat :=
  match v with
  | Scalar _ => 0
  | Array [::] => 1
  | Array (x :: _) => (nd_rank x).+1
  end%N.

(** Element access by a full multi-index. *)
Fixpoint nd_get (v : ndarray) (idx : seq nat) {struct idx} : option R :=
  match idx, v with
  | [::], Scalar x => Some x
  | i :: idx', Array xs =>
      if (i < size xs)%N then nd_get (nth (Scalar 0) xs i) idx' else None
  | _, _ => None
  end.

Definition nd_at (v : ndarray) (idx : seq nat) : R := odflt 0 (nd_get v idx).

(** [valid_index sh idx]: [idx] addresses an element of an array of shape
    [sh]. *)
Fixpoint valid_index (sh : seq nat) (idx : seq nat) : bool :=
  match sh, idx with
  | [::], [::] => true
  | n :: sh', i :: idx' => (i < n)%N && valid_index sh' idx'
  | _, _ => false
  end.

(** The shape that remains when dimension [axis] is taken out. *)
Definition shape_without (axis : nat) (sh : seq nat) : seq nat :=
  take axis sh ++ drop axis.+1 sh.

(** [nd_slice axis v idx]: the entries of [v] along dimension [axis], at the
    position [idx] of the remaining dimensions. *)
Fixpoint nd_slice (axis : nat) (v : ndarray) (idx : seq nat) : seq R :=
  match axis, v, idx with
  | 0%N, Array xs, _ => [seq nd_at x idx | x <- xs]
  | d.+1, Array xs, i :: idx' => nd_slice d (nth (Scalar 0) xs i) idx'
  | _, _, _ => [::]
  end.

(** Unary element-wise operations. *)
Fixpoint nd_map (f : R -> R) (v : ndarray) : ndarray :=
  match v with
  | Scalar x => Scalar (f x)
  | Array xs => Array (map (nd_map f) xs)
  end.

(** Element-wise combination of two arrays of one shape (the accumulation
    step of the scan and reduction kernels). *)
Fixpoint nd_zip (f : R -> R -> R) (a b : ndarray) {struct a} : ndarray :=
  match a, b with
  | Scalar x, Scalar y => Scalar (f x y)
  | Array xs, Array ys =>
      Array ((fix go (xs ys : seq ndarray) {struct xs} : seq ndarray :=
                match xs, ys with
                | x :: xs', y :: ys' => nd_zip f x y :: go xs' ys'
                | _, _ => [::]
                end) xs ys)
  | _, _ => a
  end.

(** Element-wise binary operation with NumPy-style broadcasting, for two
    arrays of the same rank: along each axis the sizes are equal, or one of
    them is 1 and that sub-array is repeated. *)
Fixpoint oseq (A : Type) (s : seq (option A)) : option (seq A) :=
  match s with
  | [::] => Some [::]
  | Some a :: s' => omap (cons a) (oseq s')
  | None :: _ => None
  end.

Fixpoint nd_bcast (f : R -> R -> R) (a b : ndarray) {struct a}
  : option ndarray :=
  match a, b with
  | Scalar x, Scalar y => Some (Scalar (f x y))
  | Array xs, Array ys =>
      if (size xs == size ys)%N then
        omap Array
          ((fix go (xs ys : seq ndarray) {struct xs}
              : option (seq ndarray) :=
              match xs, ys with
              | x :: xs', y :: ys' =>
                  if nd_bcast f x y is Some z
                  then omap (cons z) (go xs' ys') else None
              | _, _ => Some [::]
              end) xs ys)
      else if ys is [:: y] then
        omap Array (oseq (map (fun x => nd_bcast f x y) xs))
      else if xs is [:: x] then
        omap Array (oseq (map (fun y => nd_bcast f x y) ys))
      else None
  | _, _ => None
  end.

(** The operand of lower rank is first given leading axes of size 1. *)
Definition nd_expand (n : nat) (v : ndarray) : ndarray :=
  iter n (fun a => Array [:: a]) v.

Definition nd_broadcast (f : R -> R -> R) (a b : ndarray) : option ndarray :=
  let r := maxn (nd_rank a) (nd_rank b) in
  nd_bcast f (nd_expand (r - nd_rank a) a) (nd_expand (r - nd_rank b) b).

(** Cumulative sum along [axis]: along the outermost axis every sub-array is
    replaced by the sum of itself and its predecessors; an inner axis is
    reached through the outer ones. *)
Fixpoint nd_cumsum (axis : nat) (v : ndarray) : ndarray :=
  match axis, v with
  | 0%N, Array (x :: xs) => Array (x :: scanl (nd_zip +%R) x xs)
  | d.+1, Array xs => Array (map (nd_cumsum d) xs)
  | _, _ => v
  end.

(** Sum along [axis], which disappears from the shape. *)
Fixpoint nd_reduce_sum (axis : nat) (v : ndarray) : ndarray :=
  match axis, v with
  | 0%N, Array (x :: xs) => foldl (nd_zip +%R) x xs
  | 0%N, Array [::] => Scalar 0
  | d.+1, Array xs => Array (map (nd_reduce_sum d) xs)
  | _, Scalar x => Scalar x
  end.

(** ** TensorFlow: tensors and the operations used by [miq.py] *)

Record Tensor : Type := mkTensor {
  dtype : DType;
  static_shape : TensorShape;
  value : ndarray
}.

Definition get_shape (t : Tensor) : TensorShape := static_shape t.

(** [tf.convert_to_tensor] returns a tensor unchanged. *)
Definition convert_to_tensor (t : Tensor) : Tensor := t.

(** [tf.cast].  From an integer dtype to a floating one, the only use in
    [miq.py], the numbers are unchanged. *)
Definition cast (t : Tensor) (d : DType) : Tensor :=
  mkTensor d (static_shape t) (value t).

(** [tf.cumsum(x, axis)]. *)
Definition cumsum (x : Tensor) (axis : int) : result Tensor :=
  if normalize_axis (nd_rank (value x)) axis is Some d then
    Ok (mkTensor (dtype x) (static_shape x) (nd_cumsum d (value x)))
  else Raise (InvalidArgumentError "ScanOp: scan axis out of range").

(** [x - y], that is [tf.subtract]: both operands must have one dtype. *)
Definition subtract (x y : Tensor) : result Tensor :=
  if ~~ DType_eqb (dtype x) (dtype y) then
    Raise (TypeError "Input 'y' of 'Sub' Op has a type that does not match argument 'x'")
  else if broadcast_shape (static_shape x) (static_shape y) is Some s then
    if nd_broadcast (fun a b => a - b) (value x) (value y) is Some v then
      Ok (mkTensor (dtype x) s v)
    else Raise (InvalidArgumentError "Incompatible shapes")
  else Raise (ValueError "Dimensions must be equal").

(** [x ** n], that is [tf.pow] with a constant non-negative exponent. *)
Definition pow (x : Tensor) (n : nat) : result Tensor :=
  Ok (mkTensor (dtype x) (static_shape x) (nd_map (fun a => a ^+ n) (value x))).

(** [tf.reduce_sum(x, axis)]. *)
Definition reduce_sum (x : Tensor) (axis : int) : result Tensor :=
  if normalize_axis (nd_rank (value x)) axis is Some d then
    Ok (mkTensor (dtype x) (remove_axis d (static_shape x))
          (nd_reduce_sum d (value x)))
  else Raise (ValueError "Invalid reduction dimension").

(** [tf.reduce_mean(x)] over all the elements.  (For an empty tensor
    TensorFlow yields NaN, which [R] does not have; here [0 / 0 = 0].) *)
Fixpoint nd_flat (v : ndarray) : seq R :=
  match v with
  | Scalar x => [:: x]
  | Array xs => flatten (map nd_flat xs)
  end.

Definition nd_mean (v : ndarray) : R :=
  foldr +%R 0 (nd_flat v) / (size (nd_flat v))%:R.

Definition reduce_mean (x : Tensor) : Tensor :=
  mkTensor (dtype x) (known_shape [::]) (Scalar (nd_mean (value x))).

(** *** The default graph

    The layers added so far, the [GraphKeys.LOSSES] collection and the lines
    written by [logging.info]. *)
Record graph : Type := mkGraph {
  layers : seq layer;
  losses : seq Tensor;
  log : seq string
}.

(** Graph-building code: it may read and extend the graph, and it returns a
    value or raises.  The graph survives an exception. *)
Definition M (A : Type) : Type := graph -> result A * graph.

Definition ret {A : Type} (a : A) : M A := fun g => (Ok a, g).

Definition raise {A : Type} (e : exn) : M A := fun g => (Raise e, g).

Definition bind {A B : Type} (m : M A) (k : A -> M B) : M B :=
  fun g =>
    match m g with
    | (Ok a, g') => k a g'
    | (Raise e, g') => (Raise e, g')
    end.

Definition lift {A : Type} (r : result A) : M A := fun g => (r, g).

(** [tf.losses.add_loss(loss)]. *)
Definition add_to_losses (loss : Tensor) : M unit :=
  fun g => (Ok tt, mkGraph (layers g) (rcons (losses g) loss) (log g)).

Definition add_layer (l : layer) : M unit :=
  fun g => (Ok tt, mkGraph (rcons (layers g) l) (losses g) (log g)).

(** [logging.info(line)]. *)
Definition logging_info (line : string) : M unit :=
  fun g => (Ok tt, mkGraph (layers g) (losses g) (rcons (log g) line)).

End Values.

Arguments shape_without : simpl never.
Arguments ret {R A} a.
Arguments raise {R A} e.
Arguments bind {R A B} m k.
Arguments lift {R A} r.
Arguments add_layer {R} l.
Arguments logging_info {R} line.

End tf.

Notation "x <~ m ;; k" := (tf.bind m (fun x => k))
  (at level 100, m at next level, right associativity).
Notation "m >>> k" := (tf.bind m (fun _ => k))
  (at level 100, k at level 200, right associativity).

(** ** TensorFlow: softmax and cross-entropy

    The exponential and the logarithm are parameters: a real field need not
    have them. *)

Module nn.

Section Softmax.

Variable R : realFieldType.
Variables exp ln : R -> R.

Definition softmax1 (s : seq R) : seq R :=
  let e := [seq exp x | x <- s] in
  [seq x / foldr +%R 0 e | x <- e].

Definition is_scalar (v : tf.ndarray R) : bool :=
  if v is tf.Scalar _ then true else false.

Definition scalar_val (v : tf.ndarray R) : R :=
  if v is tf.Scalar x then x else 0.

(** Softmax along the last dimension. *)
Fixpoint nd_softmax (v : tf.ndarray R) : tf.ndarray R :=
  match v with
  | tf.Scalar x => tf.Scalar x
  | tf.Array xs =>
      if all is_scalar xs
      then tf.Array [seq tf.Scalar x | x <- softmax1 (map scalar_val xs)]
      else tf.Array (map nd_softmax xs)
  end.

(** [tf.nn.softmax(logits)]. *)
Definition softmax (logits : tf.Tensor R) : result (tf.Tensor R) :=
  if ~~ tf.is_floating (tf.dtype logits) then
    Raise (TypeError "Value passed to parameter 'logits' has DataType not in list of allowed values")
  else if tf.nd_rank (tf.value logits) is 0%N then
    Raise (ValueError "Shape must be at least rank 1")
  else Ok (tf.mkTensor (tf.dtype logits) (tf.static_shape logits)
             (nd_softmax (tf.value logits))).

(** [tf.nn.softmax_cross_entropy_with_logits(labels, logits)]: for every
    row, minus the sum of [labels * log(softmax(logits))]. *)
Definition softmax_cross_entropy_with_logits (labels logits : tf.Tensor R)
  : result (tf.Tensor R) :=
  if ~~ tf.is_floating (tf.dtype logits) then
    Raise (TypeError "Value passed to parameter 'features' has DataType not in list of allowed values")
  else if ~~ tf.DType_eqb (tf.dtype labels) (tf.dtype logits) then
    Raise (TypeError "Input 'labels' has a type that does not match argument 'features'")
  else
    match tf.nd_rank (tf.value logits),
          tf.nd_broadcast (fun l x => l * ln x) (tf.value labels)
            (nd_softmax (tf.value logits)) with
    | r.+1, Some prod =>
        Ok (tf.mkTensor (tf.dtype logits)
              (tf.remove_axis r (tf.static_shape logits))
              (tf.nd_map -%R (tf.nd_reduce_sum r prod)))
    | 0%N, _ => Raise (ValueError "Shape must be at least rank 1")
    | _, None => Raise (InvalidArgumentError "logits and labels must be broadcastable")
    end.

End Softmax.

End nn.

(** ** [tf.contrib.slim]: layers and losses *)

Module slim.

Section Layers.

Variable R : realFieldType.

(** What a layer computes, with its variables and its random dropout mask,
    is a parameter of the model; its shape inference is not. *)
Variable apply_layer : tf.layer -> tf.ndarray R -> tf.ndarray R.

(** Output size of one spatial dimension for a window of [k] taps spaced by
    [rate], moved by [stride]. *)
Definition window_size (pad : tf.padding) (k rate stride : nat)
    (d : tf.Dimension) : result tf.Dimension :=
  match d with
  | None => Ok None
  | Some n =>
      match pad with
      | tf.SAME => Ok (Some (if n is 0 then 0 else (n - 1) %/ stride + 1)%N)
      | tf.VALID =>
          let k_eff := ((k - 1) * rate + 1)%N in
          if (n < k_eff)%N then
            Raise (ValueError "Negative dimension size caused by subtracting the window from the input")
          else Ok (Some ((n - k_eff) %/ stride + 1)%N)
      end
  end.

Definition layer_shape (l : tf.layer) (s : tf.TensorShape)
  : result tf.TensorShape :=
  match l, s with
  | tf.conv2d_layer _ num_outputs (kh, kw) pad rate,
    Some [:: b; h; w; Some _] =>
      h' <-- window_size pad kh rate 1 h ;;
      w' <-- window_size pad kw rate 1 w ;;
      Ok (Some [:: b; h'; w'; Some num_outputs])
  | tf.conv2d_layer _ _ _ _ _, _ =>
      Raise (ValueError "Convolution expects a rank 4 input with a defined channel dimension")
  | tf.max_pool2d_layer _ (kh, kw) stride, Some [:: b; h; w; c] =>
      h' <-- window_size tf.VALID kh 1 stride h ;;
      w' <-- window_size tf.VALID kw 1 stride w ;;
      Ok (Some [:: b; h'; w'; c])
  | tf.max_pool2d_layer _ _ _, _ =>
      Raise (ValueError "Pooling expects a rank 4 input")
  | tf.flatten_layer, Some (b :: d :: ds) =>
      Ok (Some [:: b;
                if tf.oseq (d :: ds) is Some ns
                then Some (foldr muln 1%N ns) else None])
  | tf.flatten_layer, _ =>
      Raise (ValueError "Inputs must have a least 2 dimensions")
  | tf.fully_connected_layer _ num_outputs _, Some (d :: ds) =>
      if last d ds is Some _ then
        Ok (Some (rcons (belast d ds) (Some num_outputs)))
      else Raise (ValueError "The last dimension of the inputs to Dense should be defined")
  | tf.fully_connected_layer _ _ _, _ =>
      Raise (ValueError "Rank of the inputs to Dense should be known and at least 1")
  | tf.dropout_layer _ _ _, _ => Ok s
  end.

(** A layer call: infer the static shape of the output, add the layer to the
    graph, return the output tensor.  The layers with variables need a
    floating-point input. *)
Definition has_variables (l : tf.layer) : bool :=
  match l with
  | tf.conv2d_layer _ _ _ _ _ | tf.fully_connected_layer _ _ _ => true
  | _ => false
  end.

Definition call_layer (l : tf.layer) (inputs : tf.Tensor R)
  : tf.M R (tf.Tensor R) :=
  if has_variables l && ~~ tf.is_floating (tf.dtype inputs) then
    tf.raise (TypeError "Cannot create initializer for non-floating point type")
  else
    s <~ tf.lift (layer_shape l (tf.static_shape inputs)) ;;
    tf.add_layer l >>>
    tf.ret (tf.mkTensor (tf.dtype inputs) s (apply_layer l (tf.value inputs))).

(** [slim.conv2d(inputs, num_outputs, kernel_size, padding=..., scope=...,
    rate=1)], stride 1 and Relu activation. *)
Definition conv2d (inputs : tf.Tensor R) (num_outputs : nat)
    (kernel_size : nat * nat) (pad : tf.padding) (scope : string)
    (rate : nat) : tf.M R (tf.Tensor R) :=
  call_layer (tf.conv2d_layer scope num_outputs kernel_size pad rate) inputs.

(** [slim.max_pool2d(inputs, kernel_size, stride, scope=...)], padding
    'VALID'. *)
Definition max_pool2d (inputs : tf.Tensor R) (kernel_size : nat * nat)
    (stride : nat) (scope : string) : tf.M R (tf.Tensor R) :=
  call_layer (tf.max_pool2d_layer scope kernel_size stride) inputs.

(** [slim.flatten(inputs)]. *)
Definition flatten (inputs : tf.Tensor R) : tf.M R (tf.Tensor R) :=
  call_layer tf.flatten_layer inputs.

(** [slim.fully_connected(inputs, num_outputs, activation_fn=..., scope=...)];
    [relu] tells whether the default Relu activation is kept. *)
Definition fully_connected (inputs : tf.Tensor R) (num_outputs : nat)
    (relu : bool) (scope : string) : tf.M R (tf.Tensor R) :=
  call_layer (tf.fully_connected_layer scope num_outputs relu) inputs.

(** [slim.dropout(inputs, keep_prob, is_training=..., scope=...)]. *)
Definition dropout (inputs : tf.Tensor R) (keep_prob : rat)
    (is_training : bool) (scope : string) : tf.M R (tf.Tensor R) :=
  call_layer (tf.dropout_layer scope keep_prob is_training) inputs.

Variables exp ln : R -> R.

(** [slim.losses.softmax_cross_entropy(logits, onehot_labels)] with the
    default weight 1 and no label smoothing: the mean over the rows of the
    cross-entropy, added to the losses collection and returned. *)
Definition softmax_cross_entropy (logits onehot_labels : tf.Tensor R)
  : tf.M R (tf.Tensor R) :=
  if ~~ tf.is_compatible_with (tf.get_shape logits)
                              (tf.get_shape onehot_labels)
  then tf.raise (ValueError "Shapes are incompatible")
  else
    let onehot_labels := tf.cast onehot_labels (tf.dtype logits) in
    losses <~ tf.lift
      (nn.softmax_cross_entropy_with_logits exp ln onehot_labels logits) ;;
    let mean_loss := tf.reduce_mean losses in
    tf.add_to_losses mean_loss >>>
    tf.ret mean_loss.

End Layers.

End slim.

(** ** [quality/miq.py] *)

Module miq.

Section RankedProbabilityScore.

Variable R : realFieldType.

(** [ranked_probability_score(predictions, targets, dim, name=None)].  The
    [name] argument and the name scope only label the operations. *)
Definition ranked_probability_score (predictions targets : tf.Tensor R)
    (dim : int) : result (tf.Tensor R) :=
  let predictions := tf.convert_to_tensor predictions in
  let targets := tf.convert_to_tensor targets in
  if ~~ tf.is_compatible_with (tf.get_shape predictions) (tf.get_shape targets)
  then Raise (ValueError "predictions and targets must have compatible shapes")
  else
    let targets :=
      if tf.is_floating (tf.dtype predictions)
         && tf.is_integer (tf.dtype targets)
      then tf.cast targets (tf.dtype predictions)
      else targets in
    cdf_pred <-- tf.cumsum predictions dim ;;
    cdf_target <-- tf.cumsum targets dim ;;
    diff <-- tf.subtract cdf_pred cdf_target ;;
    values <-- tf.pow diff 2 ;;
    rps <-- tf.reduce_sum values dim ;;
    Ok rps.

End RankedProbabilityScore.

Section Model.

Variable R : realFieldType.
Variable apply_layer : tf.layer -> tf.ndarray R -> tf.ndarray R.
Variables exp ln : R -> R.

(** [add_loss(logits, one_hot_labels, use_rank_loss=False)]. *)
Definition add_loss (logits one_hot_labels : tf.Tensor R)
    (use_rank_loss : bool) : tf.M R unit :=
  if ~~ use_rank_loss then
    slim.softmax_cross_entropy exp ln logits one_hot_labels >>>
    tf.ret tt
  else
    probabilities <~ tf.lift (nn.softmax exp logits) ;;
    rank_loss <~ tf.lift
      (ranked_probability_score probabilities one_hot_labels 1) ;;
    tf.add_to_losses (tf.reduce_mean rank_loss).

(** [model(images, num_classes, is_training, rate)]. *)
Definition model (images : tf.Tensor R) (num_classes : nat)
    (is_training : bool) (rate : nat) : tf.M R (tf.Tensor R) :=
  net <~ slim.conv2d apply_layer images 32 (5, 5)%N tf.SAME "conv1" 1 ;;
  net <~ slim.max_pool2d apply_layer net (2, 2)%N 2 "pool1" ;;
  net <~ slim.conv2d apply_layer net 64 (5, 5)%N tf.SAME "conv2" rate ;;
  net <~ slim.max_pool2d apply_layer net (2, 2)%N 2 "pool2" ;;
  net <~ slim.flatten apply_layer net ;;
  net <~ slim.fully_connected apply_layer net 1024 true "fc3" ;;
  net <~ slim.dropout apply_layer net (1 / 2%:Q) is_training "dropout3" ;;
  net <~ slim.fully_connected apply_layer net num_classes false "fc4" ;;
  tf.ret net.

(** [model_v0]: the original model. *)
Definition model_v0 (images : tf.Tensor R) (num_classes : nat)
    (is_training : bool) : tf.M R (tf.Tensor R) :=
  model images num_classes is_training 1.

(** [model_v1]: dilated convolution. *)
Definition model_v1 (images : tf.Tensor R) (num_classes : nat)
    (is_training : bool) : tf.M R (tf.Tensor R) :=
  model images num_classes is_training 2.

(** [miq_model(images, num_classes=2, is_training=False, model_id=0)]. *)
Definition miq_model (images : tf.Tensor R) (num_classes : nat)
    (is_training : bool) (model_id : int) : tf.M R (tf.Tensor R) :=
  tf.logging_info
    ("Using model_id = " ++ string_of_int model_id ++ ".")%string >>>
  if model_id == 0 then model_v0 images num_classes is_training
  else if model_id == 1 then model_v1 images num_classes is_training
  else tf.raise (ValueError ("Unsupported model " ++ string_of_int model_id)%string).

End Model.

End miq.

(** ** The score of one row

    What the operations above compute along the class dimension of one row
    (slice), written on plain lists. *)

Section Rows.

Variable R : realFieldType.

Definition cumsum1 (s : seq R) : seq R :=
  if s is x :: s' then x :: scanl +%R x s' else [::].

Definition sum1 (s : seq R) : R :=
  if s is x :: s' then foldl +%R x s' else 0.

Definition rps1 (p t : seq R) : R :=
  sum1 [seq x ^+ 2 | x <- [seq xy.1 - xy.2 | xy <- zip (cumsum1 p) (cumsum1 t)]].

End Rows.

(** ** The specification's vocabulary

    [RPS] is the formula of the specification, written from its words; it is
    compared below with what the code computes. *)

Section Spec.
Variable R : realFieldType.
Definition CDF (s : seq R) (k : nat) : R := \sum_(0 <= j < k) nth 0 s j.
Definition RPS (p t : seq R) : R :=
  \sum_(1 <= k < (size p).+1) (CDF p k - CDF t k) ^+ 2.
Definition is_distribution (s : seq R) : bool :=
  all (fun x => 0 <= x) s && (\sum_(x <- s) x == 1).
Definition one_hot (K i : nat) : seq R := [seq (j == i)%:R | j <- iota 0 K].
Definition tensor_has_shape (sh : seq nat) (t : tf.Tensor R) : bool :=
  tf.has_shape sh (tf.value t) && tf.conforms (tf.static_shape t) sh.
Definition dtypes_agree (p t : tf.Tensor R) : bool :=
  tf.DType_eqb (tf.dtype p) (tf.dtype t)
  || tf.is_floating (tf.dtype p) && tf.is_integer (tf.dtype t).
(** The array computed by the score, once the checks have passed. *)
Definition rps_array (d : nat) (a b : tf.ndarray R) : tf.ndarray R :=
  tf.nd_reduce_sum d
    (tf.nd_map (fun x => x ^+ 2)
       (tf.nd_zip (fun x y => x - y) (tf.nd_cumsum d a) (tf.nd_cumsum d b))).

(** A vector as a rank-1 tensor, like [tf.constant]. *)
Definition constant (d : tf.DType) (s : seq R) : tf.Tensor R :=
  tf.mkTensor d (tf.known_shape [:: size s]) (tf.Array [seq tf.Scalar x | x <- s]).

Definition scalar_tensor (d : tf.DType) (x : R) : tf.Tensor R :=
  tf.mkTensor d (tf.known_shape [::]) (tf.Scalar x).

(** The distance between two class ranks. *)
Definition rank_distance (i j : nat) : nat := ((i - j) + (j - i))%N.

(** The expected score under [q] of the prediction [p], the target being the
    one-hot vector of class [i] with probability [q_i]. *)
Definition expected_RPS (q p : seq R) : R :=
  \sum_(0 <= i < size q) nth 0 q i * RPS p (one_hot (size q) i).

(** [tf.reverse(t, [axis])]. *)
Fixpoint nd_reverse (axis : nat) (v : tf.ndarray R) : tf.ndarray R :=
  match axis, v with
  | 0%N, tf.Array xs => tf.Array (rev xs)
  | d.+1, tf.Array xs => tf.Array (map (nd_reverse d) xs)
  | _, _ => v
  end.

Definition reverse (t : tf.Tensor R) (axis : nat) : tf.Tensor R :=
  tf.mkTensor (tf.dtype t) (tf.static_shape t) (nd_reverse axis (tf.value t)).

(** The number returned by a call on two vectors. *)
Definition score_of (x : result (tf.Tensor R)) : R :=
  if x is Ok r then tf.nd_at (tf.value r) [::] else 0.

(** The error raised for incompatible shapes. *)
Definition shape_error : exn :=
  ValueError "predictions and targets must have compatible shapes".

(** The layers of the model, in the order in which they are added. *)
Definition layer_stack (num_classes : nat) (is_training : bool) (rate : nat)
  : seq tf.layer :=
  [:: tf.conv2d_layer "conv1" 32 (5, 5)%N tf.SAME 1;
      tf.max_pool2d_layer "pool1" (2, 2)%N 2;
      tf.conv2d_layer "conv2" 64 (5, 5)%N tf.SAME rate;
      tf.max_pool2d_layer "pool2" (2, 2)%N 2;
      tf.flatten_layer;
      tf.fully_connected_layer "fc3" 1024 true;
      tf.dropout_layer "dropout3" (1 / 2%:Q) is_training;
      tf.fully_connected_layer "fc4" num_classes false].

(** The graph after [logging.info(line)]. *)
Definition logged (line : string) (g : tf.graph R) : tf.graph R :=
  tf.mkGraph (tf.layers g) (tf.losses g) (rcons (tf.log g) line).

(** The line that [miq_model] logs. *)
Definition model_id_line (model_id : int) : string :=
  ("Using model_id = " ++ string_of_int model_id ++ ".")%string.

(** Row [b] of a tensor of rank 2. *)
Definition row (b : nat) (t : tf.Tensor R) : seq R :=
  tf.nd_slice 1 (tf.value t) [:: b].

(** The cross-entropy of one row of labels and one row of logits. *)
Definition cross_entropy1 (exp ln : R -> R) (labels logits : seq R) : R :=
  - \sum_(lx <- zip labels (nn.softmax1 exp logits)) lx.1 * ln lx.2.

End Spec.

(** ** The layers of a model, one after the other *)

Section Stack.
Variable R : realFieldType.
Variable apply_layer : tf.layer -> tf.ndarray R -> tf.ndarray R.

(** Calling the layers of a list in turn, each on the output of the one
    before. *)
Fixpoint run_layers (ls : seq tf.layer) (x : tf.Tensor R)
  : tf.M R (tf.Tensor R) :=
  if ls is l :: ls' then
    net <~ slim.call_layer apply_layer l x ;; run_layers ls' net
  else tf.ret x.

(** The static shapes along the way. *)
Fixpoint stack_shape (ls : seq tf.layer) (s : tf.TensorShape)
  : result tf.TensorShape :=
  if ls is l :: ls' then s' <-- slim.layer_shape l s ;; stack_shape ls' s'
  else Ok s.

(** The size of a spatial dimension after the two convolutions and the two
    poolings of the model. *)
Definition pooled_size (rate : nat) (d : tf.Dimension) : result tf.Dimension :=
  d1 <-- slim.window_size tf.SAME 5 1 1 d ;;
  d2 <-- slim.window_size tf.VALID 2 1 2 d1 ;;
  d3 <-- slim.window_size tf.SAME 5 rate 1 d2 ;;
  slim.window_size tf.VALID 2 1 2 d3.

Definition is_known (d : result tf.Dimension) : bool :=
  if d is Ok (Some _) then true else false.

(** The static shapes of images that the model accepts: rank 4, a known
    number of channels, a known height and width of at least 4. *)
Definition accepted_image_shape (s : tf.TensorShape) : bool :=
  if s is Some [:: _; Some h; Some w; Some _]
  then (4 <= h)%N && (4 <= w)%N else false.

End Stack.

(** ** Worked examples

    Concrete tensors over the rationals: a batch of two rows of three
    classes, a single prediction and target, a distribution over two
    classes, and a batch of 84 by 84 images of unknown size. *)

Module examples.
Import tf.

Definition ex_pred : Tensor rat := constant float32 [:: 1; 0; 0].

Definition ex_target : Tensor rat := constant int32 [:: 0; 0; 1].

Definition ex_logits : Tensor rat :=
  mkTensor float32 (Some [:: None; Some 3%N])
    (Array [:: Array [:: Scalar 1; Scalar 0; Scalar 0];
               Array [:: Scalar 0; Scalar 1; Scalar 0]]).

Definition ex_labels : Tensor rat :=
  mkTensor int32 (known_shape [:: 2; 3]%N)
    (Array [:: Array [:: Scalar 1; Scalar 0; Scalar 0];
               Array [:: Scalar 0; Scalar 0; Scalar 1]]).

Definition ex_exp (x : rat) : rat := 1 + x * x.

Definition ex_ln (x : rat) : rat := x - 1.

Definition ex_apply (l : layer) (v : ndarray rat) : ndarray rat := v.

Definition ex_images : Tensor rat :=
  mkTensor float32 (Some [:: None; Some 84%N; Some 84%N; Some 1%N]) (Scalar 0).

Definition ex_graph : graph rat := mkGraph [::] [::] [::].

Definition ex_q : seq rat := [:: 1 / 4%:R; 3%:R / 4%:R].

Definition ex_p : seq rat := [:: 1; 0].

End examples.

(** * Properties *)

(** ** Lists *)

Section SeqFacts.

Variables (A B C : Type).

Lemma all_map_zip (P : pred A) (Q : pred B) (S : pred C) (g : A -> B -> C)
    (xs : seq A) (ys : seq B) :
  (forall x y, P x -> Q y -> S (g x y)) ->
  all P xs -> all Q ys -> all S [seq g xy.1 xy.2 | xy <- zip xs ys].
Proof.
move=> PQS; elim: xs ys => [|x xs IH] [|y ys] //= /andP[Px Pxs] /andP[Qy Qys].
by rewrite PQS //= IH.
Qed.

Lemma all_nth (P : pred A) (x0 : A) (xs : seq A) (i : nat) :
  all P xs -> (i < size xs)%N -> P (nth x0 xs i).
Proof. by move=> /all_nthP H Hi; apply: H. Qed.

End SeqFacts.

(** ** Arrays: shapes, access and slices *)

Section ArrayFacts.

Variable R : realFieldType.

Import tf.

Implicit Types (v a b : ndarray R) (sh idx : seq nat) (f : R -> R -> R).

Lemma nd_zip_Array f (xs ys : seq (ndarray R)) :
  nd_zip f (Array xs) (Array ys)
  = Array [seq nd_zip f xy.1 xy.2 | xy <- zip xs ys].
Proof.
rewrite /=; congr Array.
by elim: xs ys => [|x xs IH] [|y ys] //=; rewrite IH.
Qed.

Lemma has_shape_rank sh v : has_shape sh v -> nd_rank v = size sh.
Proof.
elim: sh v => [|n sh IH] [x|xs] //= /and3P[/eqP<-].
case: xs => [|x xs] /=; first by move=> _; case: sh {IH}.
by move=> /andP[Hx _] _; rewrite (IH x).
Qed.

Lemma has_shape_zip f sh a b :
  has_shape sh a -> has_shape sh b -> has_shape sh (nd_zip f a b).
Proof.
elim: sh a b => [|n sh IH] [x|xs] [y|ys] //.
rewrite nd_zip_Array /= => /and3P[/eqP Hx Hxs Hn] /and3P[/eqP Hy Hys _].
rewrite size_map size_zip Hx Hy minnn eqxx Hn andbT /=.
exact: (all_map_zip (P := has_shape sh) (Q := has_shape sh)).
Qed.

Lemma nd_get_at sh v idx :
  has_shape sh v -> valid_index sh idx -> nd_get v idx = Some (nd_at v idx).
Proof.
rewrite /nd_at; elim: sh v idx => [|n sh IH] [x|xs] [|i idx] //=.
move=> /and3P[/eqP Hx Hxs _] /andP[Hi Hidx]; rewrite Hx Hi.
by apply: IH => //; apply: all_nth; rewrite ?Hx.
Qed.

Lemma nd_at_Array (xs : seq (ndarray R)) i idx :
  (i < size xs)%N -> nd_at (Array xs) (i :: idx) = nd_at (nth (Scalar 0) xs i) idx.
Proof. by rewrite /nd_at /= => ->. Qed.

Lemma nd_at_zip f sh a b idx :
  has_shape sh a -> has_shape sh b -> valid_index sh idx ->
  nd_at (nd_zip f a b) idx = f (nd_at a idx) (nd_at b idx).
Proof.
elim: sh a b idx => [|n sh IH] [x|xs] [y|ys] [|i idx] //.
rewrite nd_zip_Array /= => /and3P[/eqP Hx Hxs _] /and3P[/eqP Hy Hys _].
case/andP=> Hi Hidx.
rewrite !nd_at_Array ?size_map ?size_zip ?Hx ?Hy ?minnn //.
rewrite (nth_map (Scalar 0, Scalar 0)) ?size_zip ?Hx ?Hy ?minnn //.
rewrite nth_zip ?Hx ?Hy //=.
by apply: IH => //; apply: all_nth; rewrite ?Hx ?Hy.
Qed.

Lemma nd_at_map (g : R -> R) sh v idx :
  has_shape sh v -> valid_index sh idx ->
  nd_at (nd_map g v) idx = g (nd_at v idx).
Proof.
elim: sh v idx => [|n sh IH] [x|xs] [|i idx] //.
move=> /and3P[/eqP Hx Hxs _] /andP[Hi Hidx] /=.
rewrite !nd_at_Array ?size_map ?Hx // (nth_map (Scalar 0)) ?Hx //.
by apply: IH => //; apply: all_nth; rewrite ?Hx.
Qed.

Lemma has_shape_map (g : R -> R) sh v :
  has_shape sh v -> has_shape sh (nd_map g v).
Proof.
elim: sh v => [|n sh IH] [x|xs] //= /and3P[Hx Hxs Hn].
rewrite size_map Hx Hn andbT /= all_map.
by apply: sub_all Hxs => x; apply: IH.
Qed.

Lemma nd_bcast_Array f (xs ys : seq (ndarray R)) :
  size xs = size ys ->
  nd_bcast f (Array xs) (Array ys)
  = omap (@Array R) (oseq [seq nd_bcast f xy.1 xy.2 | xy <- zip xs ys]).
Proof.
move=> Hsz; rewrite /= Hsz eqxx; congr (omap _ _).
elim: xs ys {Hsz} => [|x xs IH] [|y ys] //=.
by case: (nd_bcast f x y) => [z|] //; rewrite IH.
Qed.

(** Broadcasting does nothing on two arrays of one shape. *)
Lemma nd_bcast_same f sh a b :
  has_shape sh a -> has_shape sh b -> nd_bcast f a b = Some (nd_zip f a b).
Proof.
elim: sh a b => [|n sh IH] [x|xs] [y|ys] //.
move=> /and3P[/eqP Hx Hxs _] /and3P[/eqP Hy Hys _].
rewrite nd_zip_Array nd_bcast_Array ?Hx ?Hy //.
suff -> : oseq [seq nd_bcast f xy.1 xy.2 | xy <- zip xs ys]
          = Some [seq nd_zip f xy.1 xy.2 | xy <- zip xs ys] by [].
move: Hxs Hys {Hx Hy}; elim: xs ys => [|x xs IHxs] [|y ys] //=.
move=> /andP[Hx Hxs] /andP[Hy Hys].
by rewrite (IH x y) // IHxs.
Qed.

Lemma nd_broadcast_same f sh a b :
  has_shape sh a -> has_shape sh b -> nd_broadcast f a b = Some (nd_zip f a b).
Proof.
move=> Ha Hb; rewrite /nd_broadcast (has_shape_rank Ha) (has_shape_rank Hb).
by rewrite maxnn subnn /=; apply: nd_bcast_same Ha Hb.
Qed.

Lemma shape_without0 n sh : shape_without 0 (n :: sh) = sh.
Proof. by rewrite /shape_without /= drop0. Qed.

Lemma shape_withoutS d n sh :
  shape_without d.+1 (n :: sh) = n :: shape_without d sh.
Proof. by []. Qed.

(** Running sums and totals of sub-arrays, seen at one index. *)
Lemma scanl_zip_shape sh a (xs : seq (ndarray R)) :
  has_shape sh a -> all (has_shape sh) xs ->
  all (has_shape sh) (scanl (nd_zip +%R) a xs).
Proof.
elim: xs a => [|x xs IH] a //= Ha /andP[Hx Hxs].
by rewrite has_shape_zip //= IH // has_shape_zip.
Qed.

Lemma scanl_zip_at sh a (xs : seq (ndarray R)) idx :
  has_shape sh a -> all (has_shape sh) xs -> valid_index sh idx ->
  [seq nd_at y idx | y <- scanl (nd_zip +%R) a xs]
  = scanl +%R (nd_at a idx) [seq nd_at y idx | y <- xs].
Proof.
move=> Ha Hxs Hidx; elim: xs a Ha Hxs => [|x xs IH] a //= Ha /andP[Hx Hxs].
by rewrite IH ?has_shape_zip // (nd_at_zip _ Ha Hx Hidx).
Qed.

Lemma foldl_zip_shape sh a (xs : seq (ndarray R)) :
  has_shape sh a -> all (has_shape sh) xs ->
  has_shape sh (foldl (nd_zip +%R) a xs).
Proof.
elim: xs a => [|x xs IH] a //= Ha /andP[Hx Hxs].
by apply: IH => //; apply: has_shape_zip.
Qed.

Lemma foldl_zip_at sh a (xs : seq (ndarray R)) idx :
  has_shape sh a -> all (has_shape sh) xs -> valid_index sh idx ->
  nd_at (foldl (nd_zip +%R) a xs) idx
  = foldl +%R (nd_at a idx) [seq nd_at y idx | y <- xs].
Proof.
move=> Ha Hxs Hidx; elim: xs a Ha Hxs => [|x xs IH] a //= Ha /andP[Hx Hxs].
by rewrite IH ?has_shape_zip // (nd_at_zip _ Ha Hx Hidx).
Qed.

(** The operations keep the shape. *)
Lemma has_shape_cumsum sh d v :
  has_shape sh v -> has_shape sh (nd_cumsum d v).
Proof.
elim: d sh v => [|d IH] [|n sh] [x|xs] //=.
  case: xs => [|x xs] //= /and3P[/eqP<- /andP[Hx Hxs] Hn].
  by rewrite size_scanl eqxx Hx Hn scanl_zip_shape.
move=> /and3P[Hsz Hxs Hn]; rewrite size_map Hsz Hn andbT /= all_map.
by apply: sub_all Hxs => x; apply: IH.
Qed.

Lemma has_shape_reduce_sum sh d v :
  has_shape sh v -> (d < size sh)%N ->
  has_shape (shape_without d sh) (nd_reduce_sum d v).
Proof.
elim: d sh v => [|d IH] [|n sh] [x|xs] //=.
  rewrite ?shape_without0 ?drop0 => /and3P[/eqP<-].
  case: xs => [|x xs] /=; first by case: sh.
  by move=> /andP[Hx Hxs] _ _; apply: foldl_zip_shape.
rewrite ltnS => /and3P[Hsz Hxs Hn] Hd.
rewrite -/(shape_without d sh) size_map Hsz all_map /=.
have -> : (0 < n)%N by case: (n) Hn => //; case: (sh) Hd.
rewrite andbT; apply: sub_all Hxs => x Hx; exact: IH.
Qed.

(** The operations on a slice. *)
Lemma slice_cumsum sh d v idx :
  has_shape sh v -> (d < size sh)%N -> valid_index (shape_without d sh) idx ->
  nd_slice d (nd_cumsum d v) idx = cumsum1 (nd_slice d v idx).
Proof.
elim: d sh v idx => [|d IH] [|n sh] [x|xs] idx //=.
  rewrite ?shape_without0 ?drop0 => /and3P[_ Hxs _] _ Hidx.
  case: xs Hxs => [|x xs] //= /andP[Hx Hxs].
  by rewrite (scanl_zip_at Hx Hxs Hidx).
rewrite ltnS -?/(shape_without d sh) => /and3P[/eqP Hsz Hxs _] Hd.
case: idx => [|i idx] //= /andP[Hi Hidx].
rewrite (nth_map (Scalar 0)) ?Hsz //.
by apply: (IH sh) => //; apply: all_nth; rewrite ?Hsz.
Qed.

Lemma slice_zip f sh d a b idx :
  has_shape sh a -> has_shape sh b ->
  (d < size sh)%N -> valid_index (shape_without d sh) idx ->
  nd_slice d (nd_zip f a b) idx
  = [seq f xy.1 xy.2 | xy <- zip (nd_slice d a idx) (nd_slice d b idx)].
Proof.
elim: d sh a b idx => [|d IH] [|n sh] [x|xs] [y|ys] idx //;
  rewrite nd_zip_Array.
  rewrite ?shape_without0 ?drop0 /= => /and3P[_ Hxs _] /and3P[_ Hys _] _ Hidx.
  elim: xs ys Hxs Hys => [|x xs IHxs] [|y ys] //= /andP[Hx Hxs] /andP[Hy Hys].
  by rewrite (nd_at_zip _ Hx Hy Hidx) IHxs.
rewrite ltnS -?/(shape_without d sh) => /and3P[/eqP Hx Hxs _] /and3P[/eqP Hy Hys _] Hd.
case: idx => [|i idx] //= /andP[Hi Hidx].
rewrite (nth_map (Scalar 0, Scalar 0)) ?size_zip ?Hx ?Hy ?minnn //.
rewrite nth_zip ?Hx ?Hy //=.
by apply: (IH sh) => //; apply: all_nth; rewrite ?Hx ?Hy.
Qed.

Lemma slice_map (g : R -> R) sh d v idx :
  has_shape sh v -> (d < size sh)%N -> valid_index (shape_without d sh) idx ->
  nd_slice d (nd_map g v) idx = [seq g x | x <- nd_slice d v idx].
Proof.
elim: d sh v idx => [|d IH] [|n sh] [x|xs] idx //=.
  rewrite ?shape_without0 ?drop0 => /and3P[_ Hxs _] _ Hidx.
  rewrite -!map_comp; elim: xs Hxs => [|x xs IHxs] //= /andP[Hx Hxs].
  by rewrite (nd_at_map _ Hx Hidx) IHxs.
rewrite ltnS -?/(shape_without d sh) => /and3P[/eqP Hsz Hxs _] Hd.
case: idx => [|i idx] //= /andP[Hi Hidx].
rewrite (nth_map (Scalar 0)) ?Hsz //.
by apply: (IH sh) => //; apply: all_nth; rewrite ?Hsz.
Qed.

Lemma at_reduce_sum sh d v idx :
  has_shape sh v -> (d < size sh)%N -> valid_index (shape_without d sh) idx ->
  nd_at (nd_reduce_sum d v) idx = sum1 (nd_slice d v idx).
Proof.
elim: d sh v idx => [|d IH] [|n sh] [x|xs] idx //=.
  rewrite ?shape_without0 ?drop0 => /and3P[/eqP<- Hxs Hn] _ Hidx.
  case: xs Hxs Hn => [|x xs] /=; first by case: (sh) (idx) Hidx => [|? ?] [|? ?].
  by move=> /andP[Hx Hxs] _; rewrite (foldl_zip_at Hx Hxs Hidx).
rewrite ltnS -?/(shape_without d sh) => /and3P[/eqP Hsz Hxs _] Hd.
case: idx => [|i idx] //= /andP[Hi Hidx].
rewrite nd_at_Array ?size_map ?Hsz // (nth_map (Scalar 0)) ?Hsz //.
by apply: (IH sh) => //; apply: all_nth; rewrite ?Hsz.
Qed.

Lemma size_slice sh d v idx :
  has_shape sh v -> (d < size sh)%N -> valid_index (shape_without d sh) idx ->
  size (nd_slice d v idx) = nth 0%N sh d.
Proof.
elim: d sh v idx => [|d IH] [|n sh] [x|xs] idx //=.
  by rewrite size_map => /and3P[/eqP-> _ _].
rewrite ltnS -?/(shape_without d sh) => /and3P[/eqP Hsz Hxs _] Hd.
case: idx => [|i idx] //= /andP[Hi Hidx].
by apply: (IH sh) => //; apply: all_nth; rewrite ?Hsz.
Qed.

End ArrayFacts.

(** ** Rows: running sums and the formula *)

Section RowFacts.
Variable R : realFieldType.
Implicit Types (s p t : seq R).

Lemma foldl_addr x s : foldl +%R x s = x + \sum_(y <- s) y.
Proof.
elim: s x => [|y s IH] x /=; first by rewrite big_nil addr0.
by rewrite IH big_cons addrA.
Qed.

Lemma sum1E s : sum1 s = \sum_(x <- s) x.
Proof. by case: s => [|x s] /=; rewrite ?big_nil // foldl_addr big_cons. Qed.

Lemma size_cumsum1 s : size (cumsum1 s) = size s.
Proof. by case: s => [|x s] //=; rewrite size_scanl. Qed.

Lemma CDF_recr s k : CDF s k.+1 = CDF s k + nth 0 s k.
Proof. by rewrite /CDF big_nat_recr. Qed.

Lemma CDF_take s k : CDF s k = \sum_(x <- take k s) x.
Proof.
elim: k s => [|k IH] s; first by rewrite /CDF big_geq // take0 big_nil.
case: s => [|x s]; first by rewrite /CDF big_nil big1_seq // => j; rewrite nth_nil.
by rewrite /CDF big_nat_recl //= big_cons -IH.
Qed.

Lemma nth_cumsum1 s k : (k < size s)%N -> nth 0 (cumsum1 s) k = CDF s k.+1.
Proof.
case: s => [|x s] //=; case: k => [|k] /=.
  by rewrite /CDF big_nat1.
rewrite ltnS => Hk; rewrite nth_scanl // foldl_addr.
by rewrite CDF_take /= big_cons.
Qed.

Lemma rps1E p t :
  size p = size t ->
  rps1 p t = \sum_(0 <= k < size p) (CDF p k.+1 - CDF t k.+1) ^+ 2.
Proof.
move=> Hsz; rewrite /rps1 sum1E -map_comp big_map.
rewrite (big_nth (0, 0)) size_zip !size_cumsum1 -Hsz minnn.
apply: eq_big_nat => k /andP[_ Hk] /=.
by rewrite nth_zip ?size_cumsum1 //= !nth_cumsum1 -?Hsz.
Qed.

Lemma rps1_RPS p t : size p = size t -> rps1 p t = RPS p t.
Proof. by move=> Hsz; rewrite rps1E // /RPS big_add1. Qed.

End RowFacts.

Section TensorFacts.
Variable R : realFieldType.
Import tf.
Implicit Types (p t : Tensor R) (sh idx : seq nat).

Lemma DType_eqb_refl d : DType_eqb d d.
Proof. exact: eqxx. Qed.

Lemma DType_eqbP a b : reflect (a = b) (DType_eqb a b).
Proof. by apply: (iffP idP) => [|->]; [case: a; case: b | exact: eqxx]. Qed.

Lemma conforms_compatible (s1 s2 : TensorShape) sh :
  conforms s1 sh -> conforms s2 sh -> is_compatible_with s1 s2.
Proof.
case: s1 s2 => [d1|] [d2|] //; rewrite /conforms /known_shape /= !size_map.
move=> /andP[/eqP Hs1 H1] /andP[/eqP Hs2 H2]; rewrite Hs1 Hs2 eqxx /=.
elim: sh d1 d2 Hs1 Hs2 H1 H2 => [|n sh IH] [|a d1] [|b d2] //=.
move=> [Hs1] [Hs2] /andP[Ha H1] /andP[Hb H2]; rewrite IH // andbT.
by case: a b Ha Hb => [x|] [y|] //= /eqP-> /eqP->.
Qed.

Lemma compatible_broadcast (s1 s2 : TensorShape) :
  is_compatible_with s1 s2 -> broadcast_shape s1 s2.
Proof.
case: s1 s2 => [d1|] [d2|] //= /andP[/eqP Hsz Hall].
rewrite /pad_dims Hsz maxnn subnn /=.
suff: dims_broadcast d1 d2 by case: (dims_broadcast d1 d2).
elim: d1 d2 Hall {Hsz} => [|a d1 IH] [|b d2] //= /andP[Hab Hall].
have [c ->] : exists c, dim_broadcast a b = Some c.
  case: a b Hab => [x|] [y|] /= Hab; try by eexists.
  by rewrite (eqP Hab) eqxx; case: (y == 1%N); eexists.
by move: (IH _ Hall); case: (dims_broadcast d1 d2).
Qed.

Lemma normalize_axis_lt rank dim d :
  normalize_axis rank dim = Some d -> (d < rank)%N.
Proof.
case: dim => n /=; case: ifP => // Hn [<-] //.
by rewrite ltn_subrL /= (leq_ltn_trans (leq0n n) Hn).
Qed.

Lemma rps_run p t dim sh d :
  tensor_has_shape sh p -> tensor_has_shape sh t ->
  normalize_axis (size sh) dim = Some d ->
  exists s,
    miq.ranked_probability_score p t dim =
    if dtypes_agree p t
    then Ok (mkTensor (dtype p) s (rps_array d (value p) (value t)))
    else Raise (TypeError "Input 'y' of 'Sub' Op has a type that does not match argument 'x'").
Proof.
move=> /andP[Hp Sp] /andP[Ht St] Hd.
have Hc := conforms_compatible Sp St.
rewrite /miq.ranked_probability_score /convert_to_tensor /get_shape Hc /=.
set t' := (if _ then _ else t).
have Vt' : value t' = value t by rewrite /t'; case: ifP.
have St' : static_shape t' = static_shape t by rewrite /t'; case: ifP.
have Dt' : DType_eqb (dtype p) (dtype t') = dtypes_agree p t.
  rewrite /t' /dtypes_agree; case: ifP => /= [_|]; last by rewrite orbF.
  by rewrite DType_eqb_refl orbT.
rewrite /cumsum (has_shape_rank Hp) Vt' (has_shape_rank Ht) Hd /=.
rewrite /subtract /= Dt' St'; case: (dtypes_agree p t) => /=; last by exists None.
case: (broadcast_shape _ _) (compatible_broadcast Hc) => // s _.
have Hcp := has_shape_cumsum d Hp; have Hct := has_shape_cumsum d Ht.
rewrite (nd_broadcast_same _ Hcp Hct) /= /reduce_sum /=.
have Hz := has_shape_map (fun x => x ^+ 2) (has_shape_zip (fun x y => x - y) Hcp Hct).
by rewrite (has_shape_rank Hz) Hd /=; eexists.
Qed.

Lemma rps_array_shape sh d (a b : ndarray R) :
  has_shape sh a -> has_shape sh b -> (d < size sh)%N ->
  has_shape (shape_without d sh) (rps_array d a b).
Proof.
move=> Ha Hb Hd; apply: has_shape_reduce_sum => //.
by apply: has_shape_map; apply: has_shape_zip; apply: has_shape_cumsum.
Qed.

Lemma rps_array_at sh d (a b : ndarray R) idx :
  has_shape sh a -> has_shape sh b -> (d < size sh)%N ->
  valid_index (shape_without d sh) idx ->
  nd_get (rps_array d a b) idx
  = Some (rps1 (nd_slice d a idx) (nd_slice d b idx)).
Proof.
move=> Ha Hb Hd Hidx.
have Hca := has_shape_cumsum d Ha; have Hcb := has_shape_cumsum d Hb.
have Hz := has_shape_zip (fun x y => x - y) Hca Hcb.
have Hm := has_shape_map (fun x => x ^+ 2) Hz.
rewrite (nd_get_at (rps_array_shape Ha Hb Hd) Hidx) /rps_array.
rewrite (at_reduce_sum Hm Hd Hidx) (slice_map _ Hz Hd Hidx).
by rewrite (slice_zip _ Hca Hcb Hd Hidx) !(@slice_cumsum _ sh).
Qed.

End TensorFacts.

(** ** The formula: sign, bounds, one-hot vectors *)

Section ScoreFacts.
Variable R : realFieldType.
Implicit Types (s p t : seq R).

Lemma RPS_ge0 p t : 0 <= RPS p t.
Proof. by apply: sumr_ge0 => k _; apply: sqr_ge0. Qed.

Lemma RPS_eq0 p t :
  RPS p t = 0 <->
  (forall k, (1 <= k <= size p)%N -> CDF p k = CDF t k).
Proof.
rewrite /RPS; split=> [H0 k /andP[Hk1 HkK]|H]; last first.
  rewrite big_nat_cond big1 // => k; rewrite andbT ltnS => Hk.
  by rewrite H // subrr expr0n.
case: k Hk1 HkK => // k _ Hk.
move: H0; rewrite big_add1 big_mkord /= => /psumr_eq0P H0.
have /eqP := H0 (fun i _ => sqr_ge0 _) (Ordinal Hk) isT.
by rewrite sqrf_eq0 subr_eq0 => /eqP.
Qed.

Lemma RPS_refl p : RPS p p = 0.
Proof. by apply/RPS_eq0. Qed.

Lemma CDF_size s : CDF s (size s) = \sum_(x <- s) x.
Proof. by rewrite CDF_take take_size. Qed.

Lemma nth_ge0 s j : all (fun x => 0 <= x) s -> 0 <= nth 0 s j.
Proof.
move=> Hs; case: (ltnP j (size s)) => Hj; first exact: all_nth.
by rewrite nth_default.
Qed.

Lemma CDF_ge0 s k : all (fun x => 0 <= x) s -> 0 <= CDF s k.
Proof. by move=> Hs; apply: sumr_ge0 => j _; apply: nth_ge0. Qed.

Lemma CDF_le_total s k :
  all (fun x => 0 <= x) s -> (k <= size s)%N -> CDF s k <= \sum_(x <- s) x.
Proof.
move=> Hs Hk; rewrite -CDF_size /CDF [X in _ <= X](big_cat_nat (n := k)) //=.
by rewrite lerDl; apply: sumr_ge0 => j _; apply: nth_ge0.
Qed.

Lemma distribution_size s : is_distribution s -> (0 < size s)%N.
Proof.
case: s => // /andP[_]; rewrite big_nil eq_sym => /eqP H1.
by have := oner_neq0 R; rewrite H1 eqxx.
Qed.

(** The score of two distributions over [K] classes is at most [K - 1]. *)
Lemma RPS_le p t :
  is_distribution p -> is_distribution t -> size p = size t ->
  RPS p t <= (size p)%:R - 1.
Proof.
move=> Dp Dt Hsz; have HK := distribution_size Dp.
case/andP: Dp => Pp /eqP Sp; case/andP: Dt => Pt /eqP St.
rewrite /RPS big_nat_recr //= CDF_size {2}Hsz CDF_size Sp St subrr expr0n addr0.
have -> : (size p)%:R - 1 = \sum_(1 <= k < size p) (1 : R).
  by rewrite sumr_const_nat natrB.
apply: ler_sum_nat => k /andP[Hk1 HkK].
have Hp0 := CDF_ge0 k Pp; have Ht0 := CDF_ge0 k Pt.
have Hp1 := CDF_le_total Pp (ltnW HkK).
have Ht1 : CDF t k <= \sum_(x <- t) x.
  by apply: CDF_le_total => //; rewrite -Hsz ltnW.
rewrite Sp in Hp1; rewrite St in Ht1.
nra.
Qed.

(** One-hot vectors. *)
Lemma size_one_hot K i : size (one_hot R K i) = K.
Proof. by rewrite size_map size_iota. Qed.

Lemma sum_indicator i k : \sum_(0 <= j < k) (j == i)%:R = (i < k)%:R :> R.
Proof.
elim: k => [|k IH]; first by rewrite big_geq.
rewrite big_nat_recr //= IH ltnS [(i <= k)%N]leq_eqVlt eq_sym.
by case: eqP => [->|_]; rewrite ?ltnn ?addr0 ?add0r.
Qed.

Lemma CDF_one_hot K i k :
  (k <= K)%N -> CDF (one_hot R K i) k = (i < k)%:R.
Proof.
move=> Hk; rewrite -sum_indicator /CDF; apply: eq_big_nat => j /andP[_ Hj].
have HjK := leq_trans Hj Hk.
by rewrite (nth_map 0%N) ?size_iota // nth_iota.
Qed.

Lemma rank_distanceC i j : rank_distance i j = rank_distance j i.
Proof. by rewrite /rank_distance addnC. Qed.

Lemma RPS_one_hot K i j :
  (i < K)%N -> (j < K)%N ->
  RPS (one_hot R K i) (one_hot R K j) = (rank_distance i j)%:R.
Proof.
wlog Hij : i j / (i <= j)%N => [Hw|] Hi Hj.
  case/orP: (leq_total i j) => Hle; first exact: Hw.
  rewrite rank_distanceC -(Hw j i) // /RPS !size_one_hot.
  by apply: eq_bigr => k _; rewrite -[LHS]sqrrN opprB.
rewrite /RPS size_one_hot /rank_distance.
have -> : (i - j = 0)%N by apply/eqP; rewrite subn_eq0.
rewrite add0n (big_cat_nat (n := i.+1)) ?ltnS ?(ltnW Hi) //=.
rewrite (big_cat_nat (n := j.+1) (m := i.+1)) ?ltnS ?(ltnW Hj) //=.
have Hlo k : (1 <= k < i.+1)%N ->
    (CDF (one_hot R K i) k - CDF (one_hot R K j) k) ^+ 2 = 0.
  rewrite ltnS => /andP[Hk1 Hki].
  rewrite !CDF_one_hot ?(leq_trans Hki (ltnW Hi)) //.
  by rewrite !ltnNge Hki (leq_trans Hki Hij) /= subrr expr0n.
have Hhi k : (j.+1 <= k < K.+1)%N ->
    (CDF (one_hot R K i) k - CDF (one_hot R K j) k) ^+ 2 = 0.
  rewrite ltnS => /andP[Hjk HkK].
  rewrite !CDF_one_hot //.
  by rewrite Hjk (leq_ltn_trans Hij Hjk) subrr expr0n.
have Hmid k : (i.+1 <= k < j.+1)%N ->
    (CDF (one_hot R K i) k - CDF (one_hot R K j) k) ^+ 2 = 1.
  rewrite ltnS => /andP[Hik Hkj].
  rewrite !CDF_one_hot ?(leq_trans Hkj (ltnW Hj)) //.
  by rewrite Hik ltnNge Hkj /= subr0 expr1n.
rewrite (eq_big_nat _ _ Hlo) (eq_big_nat _ _ Hmid) (eq_big_nat _ _ Hhi).
by rewrite !sumr_const_nat !mul0rn add0r addr0 subSS.
Qed.

End ScoreFacts.

(** ** The expected score and the reversal of the classes *)

Section ScoringRule.
Variable R : realFieldType.
Implicit Types (s p q : seq R).

Lemma sum_nth s : \sum_(0 <= i < size s) nth 0 s i = \sum_(x <- s) x.
Proof. by rewrite -CDF_size. Qed.

Lemma sum_below q K k :
  (k <= K)%N ->
  \sum_(0 <= i < K) nth 0 q i * (i < k)%:R = CDF q k.
Proof.
move=> Hk; rewrite (big_cat_nat (n := k)) //= /CDF.
rewrite [X in _ + X]big_nat_cond [X in _ + X]big1 ?addr0.
  by move=> i /andP[/andP[Hi _] _]; rewrite ltnNge Hi mulr0.
by apply: eq_big_nat => i /andP[_ ->]; rewrite mulr1.
Qed.

Lemma expected_square q K k (x : R) :
  size q = K -> \sum_(y <- q) y = 1 -> (k <= K)%N ->
  \sum_(0 <= i < K) nth 0 q i * (x - (i < k)%:R) ^+ 2
  = (x - CDF q k) ^+ 2 + (CDF q k - CDF q k ^+ 2).
Proof.
move=> Hsz Hsum Hk.
have -> : \sum_(0 <= i < K) nth 0 q i * (x - (i < k)%:R) ^+ 2
        = x ^+ 2 * \sum_(0 <= i < K) nth 0 q i
          + (1 - 2 * x) * \sum_(0 <= i < K) nth 0 q i * (i < k)%:R.
  rewrite !mulr_sumr -big_split /=; apply: eq_bigr => i _.
  by case: (i < k)%N => /=; ring.
by rewrite sum_below // -Hsz sum_nth Hsum; ring.
Qed.

Lemma expected_RPS_decomp q p :
  \sum_(y <- q) y = 1 -> size p = size q ->
  expected_RPS q p = RPS p q + expected_RPS q q.
Proof.
move=> Hsum Hsz.
have Hexp p' : size p' = size q ->
    expected_RPS q p'
    = \sum_(1 <= k < (size q).+1)
        ((CDF p' k - CDF q k) ^+ 2 + (CDF q k - CDF q k ^+ 2)).
  move=> Hsz'; rewrite /expected_RPS /RPS Hsz'.
  under eq_bigr do rewrite mulr_sumr.
  rewrite exchange_big_nat /=; apply: eq_big_nat => k /andP[_ Hk].
  rewrite -(expected_square _ (erefl _) Hsum Hk).
  by apply: eq_big_nat => i _; rewrite CDF_one_hot.
rewrite (Hexp p Hsz) (Hexp q (erefl _)) /RPS Hsz !big_split /=.
rewrite [X in _ = _ + (X + _)]big1 ?add0r // => k _.
by rewrite subrr expr0n.
Qed.

Lemma CDF_inj p q :
  size p = size q ->
  (forall k, (1 <= k <= size p)%N -> CDF p k = CDF q k) -> p = q.
Proof.
move=> Hsz H; apply: (eq_from_nth (x0 := 0)) => // i Hi.
have H0 : CDF p i = CDF q i.
  by case: i Hi => [|i] Hi; [rewrite /CDF !big_geq | apply: H; rewrite /= ltnW].
by have := H i.+1 Hi; rewrite !CDF_recr H0 => /addrI.
Qed.

Lemma expected_RPS_min q p :
  \sum_(y <- q) y = 1 -> size p = size q ->
  expected_RPS q q <= expected_RPS q p
  /\ (expected_RPS q p = expected_RPS q q <-> p = q).
Proof.
move=> Hsum Hsz; rewrite (expected_RPS_decomp Hsum Hsz).
split; first by rewrite lerDr RPS_ge0.
split=> [/eqP|->]; last by rewrite RPS_refl add0r.
rewrite -subr_eq0 addrK => /eqP/RPS_eq0 H.
exact: CDF_inj.
Qed.

(** Reversal of the class order. *)
Lemma CDF_rev s k :
  (k <= size s)%N -> CDF (rev s) k = \sum_(x <- s) x - CDF s (size s - k).
Proof.
move=> Hk; rewrite !CDF_take take_rev big_rev.
rewrite -{3}(cat_take_drop (size s - k) s) big_cat /=.
by rewrite addrC addKr.
Qed.

Lemma RPS_rev p t :
  size p = size t -> \sum_(x <- p) x = \sum_(x <- t) x ->
  RPS (rev p) (rev t) = RPS p t.
Proof.
move=> Hsz Hsum; rewrite /RPS size_rev.
pose D k := CDF p k - CDF t k.
have HD k : (k <= size p)%N ->
    (CDF (rev p) k - CDF (rev t) k) ^+ 2 = D (size p - k)%N ^+ 2.
  move=> Hk; rewrite -[RHS]sqrrN /D !CDF_rev -?Hsz // Hsum.
  by congr (_ ^+ 2); ring.
have -> : \sum_(1 <= k < (size p).+1) (CDF (rev p) k - CDF (rev t) k) ^+ 2
        = \sum_(0 <= k < size p) D k ^+ 2.
  rewrite big_add1 /= [RHS]big_nat_rev /= add0n.
  by apply: eq_big_nat => k /andP[_ Hk]; rewrite HD.
have D0 : D 0%N = 0 by rewrite /D /CDF !big_geq // subrr.
have DK : D (size p) = 0 by rewrite /D CDF_size Hsz CDF_size Hsum subrr.
case: (size p) DK => [|K] DK; first by rewrite !big_geq.
rewrite big_ltn // [RHS]big_nat_recr //=.
by move: D0 DK; rewrite /D => -> ->; rewrite expr0n add0r addr0.
Qed.

End ScoringRule.

(** ** What a call returns *)

Section RunFacts.
Variable R : realFieldType.
Import tf.
Implicit Types (p t r : Tensor R) (sh idx : seq nat).

Lemma rps_spec p t dim sh d :
  tensor_has_shape sh p -> tensor_has_shape sh t ->
  normalize_axis (size sh) dim = Some d ->
  is_ok (miq.ranked_probability_score p t dim) = dtypes_agree p t
  /\ forall r, miq.ranked_probability_score p t dim = Ok r ->
       has_shape (shape_without d sh) (value r)
       /\ forall idx, valid_index (shape_without d sh) idx ->
            nd_get (value r) idx
            = Some (RPS (nd_slice d (value p) idx) (nd_slice d (value t) idx)).
Proof.
move=> Hp Ht Hd; have [s ->] := rps_run Hp Ht Hd.
have Hlt := normalize_axis_lt Hd.
case/andP: Hp => Hp _; case/andP: Ht => Ht _.
case: (dtypes_agree p t) => //; split=> // r [<-] /=.
split; first exact: rps_array_shape.
move=> idx Hidx; rewrite (rps_array_at Hp Ht Hlt Hidx) rps1_RPS //.
by rewrite !(size_slice _ Hlt Hidx).
Qed.

Lemma has_shape_constant (s : seq R) d :
  tensor_has_shape [:: size s] (constant d s).
Proof.
rewrite /tensor_has_shape /constant /= size_map eqxx /= orbT andbT.
by rewrite andbT all_map; elim: s.
Qed.

Lemma slice_constant (s : seq R) d : nd_slice 0 (value (constant d s)) [::] = s.
Proof. by rewrite /= -map_comp map_id_in. Qed.


Lemma normalize_axis0 n : normalize_axis n.+1 0 = Some 0%N.
Proof. by []. Qed.

Lemma has_shape_nil (v : ndarray R) :
  has_shape [::] v -> v = Scalar (nd_at v [::]).
Proof. by case: v. Qed.

(** The score of two vectors. *)
Lemma rps_constant dp dt (a b : seq R) :
  size a = size b ->
  dtypes_agree (constant dp a) (constant dt b) ->
  exists s, miq.ranked_probability_score (constant dp a) (constant dt b) 0
            = Ok (mkTensor dp s (Scalar (RPS a b))).
Proof.
move=> Hsz Hd.
have Ha := has_shape_constant a dp.
have Hb : tensor_has_shape [:: size a] (constant dt b).
  by rewrite Hsz; apply: has_shape_constant.
have [s Hrun] := rps_run Ha Hb (normalize_axis0 0).
rewrite Hd in Hrun.
have [_ /(_ _ Hrun)[/has_shape_nil Hv /(_ [::] isT)]] :=
  rps_spec Ha Hb (normalize_axis0 0).
rewrite !slice_constant => Hget; exists s; rewrite Hrun.
by move: Hv Hget; rewrite /nd_at /= => -> /= [->].
Qed.

End RunFacts.

(** ** Reversal, dtypes and the shape check *)

Section MoreRunFacts.
Variable R : realFieldType.
Import tf.
Implicit Types (p t r : Tensor R) (sh idx : seq nat) (v : ndarray R).

Lemma has_shape_reverse sh d v : has_shape sh v -> has_shape sh (nd_reverse d v).
Proof.
elim: d sh v => [|d IH] [|n sh] [x|xs] //=.
  by rewrite size_rev all_rev.
move=> /and3P[Hsz Hxs Hn]; rewrite size_map Hsz Hn andbT /= all_map.
by apply: sub_all Hxs => x; apply: IH.
Qed.

Lemma slice_reverse sh d v idx :
  has_shape sh v -> (d < size sh)%N -> valid_index (shape_without d sh) idx ->
  nd_slice d (nd_reverse d v) idx = rev (nd_slice d v idx).
Proof.
elim: d sh v idx => [|d IH] [|n sh] [x|xs] idx //=.
  by rewrite map_rev.
rewrite ltnS -?/(shape_without d sh) => /and3P[/eqP Hsz Hxs _] Hd.
case: idx => [|i idx] //= /andP[Hi Hidx].
rewrite (nth_map (Scalar 0)) ?Hsz //.
by apply: (IH sh) => //; apply: all_nth; rewrite ?Hsz.
Qed.

Lemma tensor_has_shape_reverse sh d t :
  tensor_has_shape sh t -> tensor_has_shape sh (reverse t d).
Proof. by case/andP=> Ht St; rewrite /tensor_has_shape /= has_shape_reverse. Qed.

Lemma floating_not_integer d : is_floating d -> is_integer d = false.
Proof. by case: d. Qed.

Lemma rps_dtype p t dim r :
  miq.ranked_probability_score p t dim = Ok r -> dtype r = dtype p.
Proof.
rewrite /miq.ranked_probability_score /convert_to_tensor.
case: (is_compatible_with _ _) => //=.
rewrite /cumsum; case: (normalize_axis _ _) => [d|] //=.
case: (normalize_axis _ _) => [d'|] //=.
rewrite /subtract /=; case: (DType_eqb _ _) => //=.
case: (broadcast_shape _ _) => [s|] //=.
case: (nd_broadcast _ _ _) => [v|] //=.
rewrite /reduce_sum /=; case: (normalize_axis _ _) => [d''|] //=.
by case=> <-.
Qed.

Lemma rps_compatible p t dim :
  is_compatible_with (get_shape p) (get_shape t) ->
  miq.ranked_probability_score p t dim <> Raise shape_error.
Proof.
rewrite /miq.ranked_probability_score /convert_to_tensor => -> /=.
rewrite /cumsum; case: (normalize_axis _ _) => [d|] //=.
case: (normalize_axis _ _) => [d'|] //=.
rewrite /subtract /=; case: (DType_eqb _ _) => //=.
case: (broadcast_shape _ _) => [s|] //=.
case: (nd_broadcast _ _ _) => [v|] //=.
by rewrite /reduce_sum /=; case: (normalize_axis _ _) => [d''|].
Qed.

Lemma known_shape_compatible sh1 sh2 :
  is_compatible_with (known_shape sh1) (known_shape sh2) = (sh1 == sh2).
Proof.
rewrite /= !size_map; elim: sh1 sh2 => [|a sh1 IH] [|b sh2] //=.
by rewrite eqSS eqseq_cons -IH; case: (a == b)%N; rewrite ?andbF.
Qed.

End MoreRunFacts.

(** ** The layers of the model *)

Section ModelFacts.
Variable R : realFieldType.
Variable apply_layer : tf.layer -> tf.ndarray R -> tf.ndarray R.
Import tf.
Implicit Types (g : graph R) (x : Tensor R) (l : layer) (s : TensorShape).

Lemma bind_ok A B (m : M R A) (k : A -> M R B) g b g2 :
  bind m k g = (Ok b, g2) ->
  exists a g1, m g = (Ok a, g1) /\ k a g1 = (Ok b, g2).
Proof.
rewrite /bind; case E: (m g) => [[a|e] g1] //= H.
by exists a, g1.
Qed.

Lemma call_layer_ok l x g y g' :
  slim.call_layer apply_layer l x g = (Ok y, g') ->
  [/\ slim.layer_shape l (static_shape x) = Ok (static_shape y),
      dtype y = dtype x,
      layers g' = rcons (layers g) l,
      losses g' = losses g & log g' = log g].
Proof.
rewrite /slim.call_layer; case: ifP => // _.
rewrite /bind /lift; case: (slim.layer_shape _ _) => [s|e] //=.
by case=> <- <-.
Qed.

Lemma conv2d_shape sc n k pad rate s s' :
  slim.layer_shape (conv2d_layer sc n k pad rate) s = Ok s' ->
  exists b h w c h' w',
    s = Some [:: b; h; w; c] /\ s' = Some [:: b; h'; w'; Some n].
Proof.
case: k => kh kw; case: s => [[|b [|h [|w [|[c|] [|? ?]]]]]|] //=.
case: (slim.window_size _ _ _ _ h) => [h'|] //=.
case: (slim.window_size _ _ _ _ w) => [w'|] //= [<-].
by exists b, h, w, (Some c), h', w'.
Qed.

Lemma max_pool2d_shape sc k stride s s' :
  slim.layer_shape (max_pool2d_layer sc k stride) s = Ok s' ->
  exists b h w c h' w',
    s = Some [:: b; h; w; c] /\ s' = Some [:: b; h'; w'; c].
Proof.
case: k => kh kw; case: s => [[|b [|h [|w [|c [|? ?]]]]]|] //=.
case: (slim.window_size _ _ _ _ h) => [h'|] //=.
case: (slim.window_size _ _ _ _ w) => [w'|] //= [<-].
by exists b, h, w, c, h', w'.
Qed.

Lemma flatten_shape s s' :
  slim.layer_shape flatten_layer s = Ok s' ->
  exists b ds k, s = Some (b :: ds) /\ s' = Some [:: b; k].
Proof.
case: s => [[|b [|d ds]]|] //= [<-].
by exists b, (d :: ds); eexists.
Qed.

Lemma fully_connected_shape sc n relu b k s' :
  slim.layer_shape (fully_connected_layer sc n relu) (Some [:: b; k]) = Ok s' ->
  s' = Some [:: b; Some n].
Proof. by case: k => [k|] //= [<-]. Qed.

Lemma model_ok images num_classes is_training rate g logits g' :
  miq.model apply_layer images num_classes is_training rate g
  = (Ok logits, g') ->
  exists b h w c,
    [/\ static_shape images = Some [:: b; h; w; c],
        static_shape logits = Some [:: b; Some num_classes],
        layers g' = layers g ++ layer_stack num_classes is_training rate,
        losses g' = losses g & log g' = log g].
Proof.
rewrite /miq.model /slim.conv2d /slim.max_pool2d /slim.flatten
  /slim.fully_connected /slim.dropout.
move=> H; have [x1 [g1 [/call_layer_ok[S1 _ L1 O1 G1] {}H]]] := bind_ok H.
have [x2 [g2 [/call_layer_ok[S2 _ L2 O2 G2] {}H]]] := bind_ok H.
have [x3 [g3 [/call_layer_ok[S3 _ L3 O3 G3] {}H]]] := bind_ok H.
have [x4 [g4 [/call_layer_ok[S4 _ L4 O4 G4] {}H]]] := bind_ok H.
have [x5 [g5 [/call_layer_ok[S5 _ L5 O5 G5] {}H]]] := bind_ok H.
have [x6 [g6 [/call_layer_ok[S6 _ L6 O6 G6] {}H]]] := bind_ok H.
have [x7 [g7 [/call_layer_ok[S7 _ L7 O7 G7] {}H]]] := bind_ok H.
have [x8 [g8 [/call_layer_ok[S8 _ L8 O8 G8] {}H]]] := bind_ok H.
case: H => <- <-.
have [b [h [w [c [h1 [w1 [E0 E1]]]]]]] := conv2d_shape S1.
exists b, h, w, c; rewrite E0; split=> //; last 2 first.
- by rewrite O8 O7 O6 O5 O4 O3 O2 O1.
- by rewrite G8 G7 G6 G5 G4 G3 G2 G1.
- move: S2; rewrite E1 => /max_pool2d_shape[b2 [? [? [? [h2 [w2 [[<- _ _ _] E2]]]]]]].
  move: S3; rewrite E2 => /conv2d_shape[b3 [? [? [? [h3 [w3 [[<- _ _ _] E3]]]]]]].
  move: S4; rewrite E3 => /max_pool2d_shape[b4 [? [? [? [h4 [w4 [[<- _ _ _] E4]]]]]]].
  move: S5; rewrite E4 => /flatten_shape[b5 [? [k5 [[<- _] E5]]]].
  move: S6; rewrite E5 => /fully_connected_shape E6.
  move: S7; rewrite E6 /= => -[E7].
  by move: S8; rewrite -E7 => /fully_connected_shape.
- rewrite L8 L7 L6 L5 L4 L3 L2 L1 -!cats1 -!catA /=.
  by [].
Qed.


Lemma window_same k rate n :
  (0 < n)%N -> slim.window_size SAME k rate 1 (Some n) = Ok (Some n).
Proof. by case: n => //= n _; rewrite divn1 subn1 addn1. Qed.

Lemma window_pool n :
  (2 <= n)%N ->
  slim.window_size VALID 2 1 2 (Some n) = Ok (Some ((n - 2) %/ 2 + 1)%N).
Proof. by move=> Hn; rewrite /= ltnNge Hn. Qed.

Lemma call_layer_run l dt s0 (v : ndarray R) g s :
  is_floating dt -> slim.layer_shape l s0 = Ok s ->
  slim.call_layer apply_layer l (mkTensor dt s0 v) g
  = (Ok (mkTensor dt s (apply_layer l v)),
     mkGraph (rcons (layers g) l) (losses g) (log g)).
Proof.
by move=> Hf Hs; rewrite /slim.call_layer /= Hf andbF /bind /lift Hs.
Qed.

Lemma pooled_ge2 n : (4 <= n)%N -> (2 <= (n - 2) %/ 2 + 1)%N.
Proof.
by move=> Hn; rewrite addn1 ltnS divn_gt0 // leq_subRL ?(leq_trans _ Hn).
Qed.

Lemma model_runs images num_classes is_training rate g b h w c :
  static_shape images = Some [:: b; Some h; Some w; Some c] ->
  (4 <= h)%N -> (4 <= w)%N -> is_floating (dtype images) ->
  is_ok (miq.model apply_layer images num_classes is_training rate g).1.
Proof.
case: images => dt s0 v /= -> Hh Hw Hf.
rewrite /miq.model /slim.conv2d /slim.max_pool2d /slim.flatten
  /slim.fully_connected /slim.dropout.
have H0h : (0 < h)%N by apply: leq_trans Hh.
have H0w : (0 < w)%N by apply: leq_trans Hw.
have H2h : (2 <= h)%N by apply: leq_trans Hh.
have H2w : (2 <= w)%N by apply: leq_trans Hw.
pose ph := ((h - 2) %/ 2 + 1)%N; pose pw := ((w - 2) %/ 2 + 1)%N.
have Hph : (2 <= ph)%N by apply: pooled_ge2.
have Hpw : (2 <= pw)%N by apply: pooled_ge2.
have S1 : slim.layer_shape (conv2d_layer "conv1" 32 (5, 5)%N SAME 1)
    (Some [:: b; Some h; Some w; Some c])
    = Ok (Some [:: b; Some h; Some w; Some 32%N]).
  by rewrite /slim.layer_shape !window_same.
have S2 : slim.layer_shape (max_pool2d_layer "pool1" (2, 2)%N 2)
    (Some [:: b; Some h; Some w; Some 32%N])
    = Ok (Some [:: b; Some ph; Some pw; Some 32%N]).
  by rewrite /slim.layer_shape !window_pool.
have S3 : slim.layer_shape (conv2d_layer "conv2" 64 (5, 5)%N SAME rate)
    (Some [:: b; Some ph; Some pw; Some 32%N])
    = Ok (Some [:: b; Some ph; Some pw; Some 64%N]).
  by rewrite /slim.layer_shape !window_same // ?(leq_trans _ Hph) ?(leq_trans _ Hpw).
have S4 : slim.layer_shape (max_pool2d_layer "pool2" (2, 2)%N 2)
    (Some [:: b; Some ph; Some pw; Some 64%N])
    = Ok (Some [:: b; Some ((ph - 2) %/ 2 + 1)%N;
                   Some ((pw - 2) %/ 2 + 1)%N; Some 64%N]).
  by rewrite /slim.layer_shape !window_pool.
pose qh := ((ph - 2) %/ 2 + 1)%N; pose qw := ((pw - 2) %/ 2 + 1)%N.
have S5 : slim.layer_shape flatten_layer
    (Some [:: b; Some qh; Some qw; Some 64%N])
    = Ok (Some [:: b; Some (qh * (qw * (64 * 1)))%N]) by [].
have S6 k : slim.layer_shape (fully_connected_layer "fc3" 1024 true)
    (Some [:: b; Some k]) = Ok (Some [:: b; Some 1024%N]) by [].
have S7 : slim.layer_shape (dropout_layer "dropout3" (1 / 2%:Q) is_training)
    (Some [:: b; Some 1024%N]) = Ok (Some [:: b; Some 1024%N]) by [].
have S8 : slim.layer_shape (fully_connected_layer "fc4" num_classes false)
    (Some [:: b; Some 1024%N]) = Ok (Some [:: b; Some num_classes]) by [].
rewrite /bind (call_layer_run _ _ Hf S1) (call_layer_run _ _ Hf S2).
rewrite (call_layer_run _ _ Hf S3) (call_layer_run _ _ Hf S4).
rewrite (call_layer_run _ _ Hf S5) (call_layer_run _ _ Hf (S6 _)).
by rewrite (call_layer_run _ _ Hf S7) (call_layer_run _ _ Hf S8).
Qed.

End ModelFacts.

(** ** Softmax, cross-entropy and the mean *)

Section LossFacts.
Variable R : realFieldType.
Variables exp ln : R -> R.
Import tf.
Implicit Types (v : ndarray R) (sh idx : seq nat).

Lemma all_scalar_shape (xs : seq (ndarray R)) :
  all (has_shape [::]) xs -> all (@nn.is_scalar R) xs.
Proof. by apply: sub_all => -[]. Qed.

Lemma scalar_val_at (xs : seq (ndarray R)) :
  all (has_shape [::]) xs ->
  [seq nd_at x [::] | x <- xs] = [seq nn.scalar_val x | x <- xs].
Proof. by elim: xs => [|[x|?] xs IH] //= Hxs; rewrite IH. Qed.

Lemma has_shape_softmax sh v :
  has_shape sh v -> has_shape sh (nn.nd_softmax exp v).
Proof.
elim: sh v => [|n sh IH] [x|xs] //= /and3P[Hsz Hxs Hn].
case: ifP => Hsc /=; last first.
  rewrite size_map Hsz Hn andbT /= all_map.
  by apply: sub_all Hxs => x; apply: IH.
rewrite /nn.softmax1 !size_map Hsz Hn andbT /=.
have -> : sh = [::].
  case: xs Hsz Hxs Hsc Hn => [|[x|?] xs] //=; first by move/eqP<-; case: (sh).
  by move=> _ /andP[]; case: (sh).
by rewrite all_map; apply/allP.
Qed.

Lemma slice_softmax sh d v idx :
  has_shape sh v -> size sh = d.+1 ->
  valid_index (shape_without d sh) idx ->
  nd_slice d (nn.nd_softmax exp v) idx = nn.softmax1 exp (nd_slice d v idx).
Proof.
elim: d sh v idx => [|d IH] [|n sh] [x|xs] idx //=.
  case: sh => // /and3P[_ Hxs _] _; rewrite shape_without0.
  case: idx => // _; rewrite (all_scalar_shape Hxs) /= -map_comp.
  by rewrite (scalar_val_at Hxs) map_id_in.
move=> /and3P[/eqP Hsz Hxs Hn] [Hsh]; rewrite -?/(shape_without d sh).
case: idx => [|i idx] //= /andP[Hi Hidx].
have Hns : all (@nn.is_scalar R) xs = false.
  case: xs Hsz Hxs Hi {Hn} => [|[x|?] xs] //=; first by move=> <-.
  by case: (sh) Hsh.
rewrite Hns /= (nth_map (Scalar 0)) ?Hsz //.
by apply: (IH sh) => //; apply: all_nth; rewrite ?Hsz.
Qed.

Lemma nd_mean_vector B v :
  has_shape [:: B] v ->
  nd_mean v = (\sum_(0 <= b < B) nd_at v [:: b]) / B%:R.
Proof.
case: v => [x|xs] //= /and3P[/eqP Hsz Hxs _].
have Hflat : flatten [seq nd_flat x | x <- xs] = [seq nn.scalar_val x | x <- xs].
  by elim: xs Hxs {Hsz} => [|[x|?] xs IH] //= Hxs; rewrite IH.
rewrite /nd_mean /= Hflat size_map Hsz foldrE big_map; congr (_ / _).
rewrite (big_nth (Scalar 0)) Hsz; apply: eq_big_nat => b /andP[_ Hb].
rewrite nd_at_Array ?Hsz //.
by move: (all_nth (Scalar 0) Hxs (i := b)); rewrite Hsz => /(_ Hb); case: (nth _ _ _).
Qed.


Implicit Types (g : graph R).

Lemma softmax_run (logits : Tensor R) B K :
  tensor_has_shape [:: B; K] logits -> is_floating (dtype logits) ->
  nn.softmax exp logits
  = Ok (mkTensor (dtype logits) (static_shape logits)
          (nn.nd_softmax exp (value logits))).
Proof.
move=> /andP[Hv _] Hf; rewrite /nn.softmax Hf /=.
by rewrite (has_shape_rank Hv).
Qed.

Lemma normalize_axis_2_1 : normalize_axis 2 1 = Some 1%N.
Proof. by []. Qed.

Lemma mean_rps (a b : ndarray R) B K :
  has_shape [:: B; K] a -> has_shape [:: B; K] b ->
  nd_mean (rps_array 1 (nn.nd_softmax exp a) b)
  = (\sum_(0 <= i < B)
       RPS (nn.softmax1 exp (nd_slice 1 a [:: i])) (nd_slice 1 b [:: i]))
    / B%:R.
Proof.
move=> Ha Hb; have Hsa := has_shape_softmax Ha.
have Hsh : has_shape [:: B] (rps_array 1 (nn.nd_softmax exp a) b).
  exact: (@rps_array_shape _ [:: B; K] 1).
rewrite (nd_mean_vector Hsh); congr (_ / _).
apply: eq_big_nat => i /andP[_ Hi].
have Hidx : valid_index (shape_without 1 [:: B; K]) [:: i] by rewrite /= Hi.
rewrite /nd_at (@rps_array_at _ [:: B; K] 1 _ _ [:: i]) //.
rewrite (@slice_softmax [:: B; K] 1) // rps1_RPS //.
by rewrite /nn.softmax1 !size_map !(@size_slice _ [:: B; K] 1 _ [:: i]).
Qed.

Lemma mean_cross_entropy (a b : ndarray R) B K :
  has_shape [:: B; K] a -> has_shape [:: B; K] b ->
  nd_mean (nd_map -%R (nd_reduce_sum 1
     (nd_zip (fun l x => l * ln x) b (nn.nd_softmax exp a))))
  = (\sum_(0 <= i < B)
       cross_entropy1 exp ln (nd_slice 1 b [:: i]) (nd_slice 1 a [:: i]))
    / B%:R.
Proof.
move=> Ha Hb; have Hsa := has_shape_softmax Ha.
have Hz := has_shape_zip (fun l x => l * ln x) Hb Hsa.
have Hr : has_shape [:: B] (nd_reduce_sum 1
    (nd_zip (fun l x => l * ln x) b (nn.nd_softmax exp a))).
  exact: (@has_shape_reduce_sum _ [:: B; K] 1).
rewrite (nd_mean_vector (has_shape_map _ Hr)); congr (_ / _).
apply: eq_big_nat => i /andP[_ Hi].
have Hidx : valid_index (shape_without 1 [:: B; K]) [:: i] by rewrite /= Hi.
rewrite (@nd_at_map _ _ [:: B]) //= ?Hi //.
rewrite (@at_reduce_sum _ [:: B; K] 1) // (@slice_zip _ _ [:: B; K] 1) //.
by rewrite (@slice_softmax [:: B; K] 1) // sum1E big_map.
Qed.

End LossFacts.

(** * The claims *)

Section Claims.
Variable R : realFieldType.
Import tf.
Implicit Types (p t r : Tensor R) (sh idx : seq nat).




(** Claim C4.  Let [q] be a distribution over [K] ranked classes and let the
    expected score of a prediction [x] be the sum over the classes [i] of
    [q_i] times the score that the call returns for [x] against the one-hot
    vector of [i].  Every such call returns; the expected score of [q]
    itself is at most that of any prediction [p] of length [K], and the two
    are equal only for [p = q]. *)
Theorem rps_strictly_proper (q p : seq R) :
  is_distribution q -> size p = size q ->
  let K := size q in
  let E x := \sum_(0 <= i < K) nth 0 q i *
      score_of (miq.ranked_probability_score
                  (constant float32 x) (constant float32 (one_hot R K i)) 0) in
  [/\ forall x i, size x = K ->
        is_ok (miq.ranked_probability_score
                 (constant float32 x) (constant float32 (one_hot R K i)) 0),
      E q <= E p
    & E p = E q <-> p = q].
Proof.
move=> /andP[_ /eqP Hsum] Hsz K E.
have Hrun x i : size x = K ->
    exists s, miq.ranked_probability_score
                (constant float32 x) (constant float32 (one_hot R K i)) 0
              = Ok (mkTensor float32 s (Scalar (RPS x (one_hot R K i)))).
  by move=> Hx; apply: rps_constant; rewrite ?size_one_hot.
have HE x : size x = K -> E x = expected_RPS q x.
  move=> Hx; rewrite /E /expected_RPS; apply: eq_bigr => i _.
  by have [s ->] := Hrun x i Hx.
split; first by move=> x i /(Hrun x i)[s ->].
  by rewrite !HE //; have [] := expected_RPS_min Hsum Hsz.
by rewrite !HE //; have [] := expected_RPS_min Hsum Hsz.
Qed.



(** Claim C9.  With floating-point predictions and integer targets, the call
    gives the same result as the call on the targets cast beforehand to the
    dtype of the predictions; the cast targets have that dtype, and so has
    whatever the call returns. *)
Theorem rps_coerces_integer_targets p t dim :
  is_floating (dtype p) -> is_integer (dtype t) ->
  [/\ miq.ranked_probability_score p t dim
      = miq.ranked_probability_score p (cast t (dtype p)) dim,
      dtype (cast t (dtype p)) = dtype p
    & forall r, miq.ranked_probability_score p t dim = Ok r ->
        dtype r = dtype p].
Proof.
move=> Hp Ht; split=> //; last by move=> r; apply: rps_dtype.
rewrite /miq.ranked_probability_score /convert_to_tensor /get_shape /=.
by rewrite Hp Ht /= (floating_not_integer Hp).
Qed.


(** The preconditions above are needed.  Integer predictions with
    floating-point targets are not coerced, and the subtraction fails. *)
Example rps_needs_agreeing_dtypes :
  miq.ranked_probability_score
    (constant int32 [:: 1; 0; 0 : R]) (constant float32 [:: 0; 0; 1]) 0
  = Raise (TypeError "Input 'y' of 'Sub' Op has a type that does not match argument 'x'").
Proof. by []. Qed.

(** Without equal totals the reversal changes the score: [[1,0]] against
    [[0,0]] scores 2, and [[0,1]] against [[0,0]] scores 1. *)
Example reversal_needs_equal_totals :
  miq.ranked_probability_score
    (constant float32 [:: 1; 0 : R]) (constant float32 [:: 0; 0]) 0
  = Ok (scalar_tensor float32 2)
  /\ miq.ranked_probability_score
       (reverse (constant float32 [:: 1; 0 : R]) 0)
       (reverse (constant float32 [:: 0; 0]) 0) 0
     = Ok (scalar_tensor float32 1).
Proof.
by split; rewrite /miq.ranked_probability_score /scalar_tensor /=;
   congr (Ok (mkTensor _ _ (Scalar _))); ring.
Qed.

(** The shape check looks at static shapes: two tensors whose static shape
    leaves the length open pass it whatever their lengths, and the
    subtraction then broadcasts. *)
Example unknown_static_shapes_may_broadcast :
  miq.ranked_probability_score
    (mkTensor float32 (Some [:: None]) (Array [:: Scalar (1 : R)]))
    (mkTensor float32 (Some [:: None])
       (Array [:: Scalar 0; Scalar 0; Scalar 1])) 0
  = Ok (mkTensor float32 (Some [::]) (Scalar 2)).
Proof.
rewrite /miq.ranked_probability_score /=.
by congr (Ok (mkTensor _ _ (Scalar _))); ring.
Qed.

End Claims.

Section ModelClaims.
Variable R : realFieldType.
Variable apply_layer : tf.layer -> tf.ndarray R -> tf.ndarray R.
Import tf.


(** The two pooling layers need images of at least 4 by 4 pixels. *)
Example model_rejects_small_images (g : graph R) :
  (miq.miq_model apply_layer
     (mkTensor float32 (known_shape [:: 1; 3; 3; 1]%N) (Scalar 0)) 2 false 0 g).1
  = Raise (ValueError "Negative dimension size caused by subtracting the window from the input").
Proof. by []. Qed.

End ModelClaims.

Section LossClaims.
Variable R : realFieldType.
Variables exp ln : R -> R.
Import tf.

(** Claim C7.  Let the logits be floating-point, of shape [[B, K]] with
    [B > 0], and the labels of the same shape.  With [use_rank_loss] true
    (and labels that are integers or of the dtype of the logits), [add_loss]
    takes the softmax of the logits, calls [ranked_probability_score] on it
    and the labels along dimension 1, and adds the mean of the result to the
    losses: the mean over the rows of the score of the softmax of the row of
    logits against the row of labels.  With [use_rank_loss] false it adds
    instead the mean over the rows of the softmax cross-entropy.  In both
    cases nothing else in the graph changes. *)
Theorem add_loss_selects_the_loss (logits labels : Tensor R) B K g :
  tensor_has_shape [:: B; K] logits -> tensor_has_shape [:: B; K] labels ->
  is_floating (dtype logits) -> (0 < B)%N ->
  let registered loss :=
    (Ok tt, mkGraph (layers g) (rcons (losses g) loss) (log g)) in
  let scalar x := mkTensor (dtype logits) (known_shape [::]) (Scalar x) in
  (dtypes_agree logits labels ->
   exists probabilities rank_loss,
     [/\ nn.softmax exp logits = Ok probabilities,
         miq.ranked_probability_score probabilities labels 1 = Ok rank_loss,
         miq.add_loss exp ln logits labels true g
         = registered (reduce_mean rank_loss)
       & reduce_mean rank_loss
         = scalar ((\sum_(0 <= b < B)
                      RPS (nn.softmax1 exp (row b logits)) (row b labels))
                   / B%:R)])
  /\ miq.add_loss exp ln logits labels false g
     = registered
         (scalar ((\sum_(0 <= b < B)
                     cross_entropy1 exp ln (row b labels) (row b logits))
                  / B%:R)).
Proof.
move=> Hl Hy Hf HB registered scalar; split.
  move=> Hd; rewrite /miq.add_loss /= /bind /lift (softmax_run exp Hl Hf).
  set probs := mkTensor _ _ _.
  have Hprobs : tensor_has_shape [:: B; K] probs.
    case/andP: (Hl) => Hv Hs; apply/andP; split=> //.
    exact: has_shape_softmax.
  have [s] := rps_run Hprobs Hy normalize_axis_2_1.
  rewrite /dtypes_agree /= -/(dtypes_agree logits labels) Hd => Hrun.
  exists probs; eexists; split; [by [] | exact: Hrun | by rewrite Hrun |].
  rewrite /reduce_mean /scalar /=.
  case/andP: Hl => Hl _; case/andP: Hy => Hy _.
  by rewrite (mean_rps exp Hl Hy).
case/andP: Hl => Hl Sl; case/andP: Hy => Hy Sy.
rewrite /miq.add_loss /= /slim.softmax_cross_entropy /get_shape.
rewrite (conforms_compatible Sl Sy) /= /bind /lift.
rewrite /nn.softmax_cross_entropy_with_logits /= Hf DType_eqb_refl /=.
rewrite (has_shape_rank Hl) /=.
rewrite (nd_broadcast_same _ Hy (has_shape_softmax exp Hl)) /=.
by rewrite /add_to_losses /reduce_mean /registered /scalar /=
     (mean_cross_entropy exp ln Hl Hy).
Qed.

End LossClaims.

(** * Further properties *)

Section MoreScore.
Variable R : realFieldType.
Import tf.
Implicit Types (p t r : Tensor R) (sh idx : seq nat) (a b v : ndarray R).

Lemma normalize_axis_range n (z : int) :
  isSome (normalize_axis n z) = (- n%:Z <= z) && (z < n%:Z).
Proof.
case: z => k /=.
  by case: ifP => H; rewrite ?H /= ?andbF // (le_trans _ (lez_nat 0 k)) // oppr_le0.
rewrite NegzE; case: ifP => H /=.
  by rewrite lerN2 lez_nat H /= (lt_le_trans _ (lez_nat 0 n)) // oppr_lt0.
by rewrite lerN2 lez_nat H.
Qed.

(** Two arrays of one shape with the same entries are equal. *)
Lemma nd_ext sh a b :
  has_shape sh a -> has_shape sh b ->
  (forall idx, valid_index sh idx -> nd_get a idx = nd_get b idx) -> a = b.
Proof.
elim: sh a b => [|n sh IH] [x|xs] [y|ys] //=.
  by move=> _ _ /(_ [::] isT) [->].
case/and3P=> /eqP Sx Ax _ /and3P[/eqP Sy Ay _] H; congr Array.
apply: (@eq_from_nth _ (Scalar 0)); first by rewrite Sx Sy.
move=> i Hi; apply: IH.
- by apply: all_nth.
- by apply: all_nth => //; rewrite Sy -Sx.
move=> idx Hidx; have := H (i :: idx).
by rewrite /= -Sx Hi Hidx /= Sy -Sx Hi; apply.

Qed.


Lemma RPS_sym (p t : seq R) : size p = size t -> RPS p t = RPS t p.
Proof.
by move=> E; rewrite /RPS E; apply: eq_bigr => k _; rewrite -sqrrN opprB.
Qed.

Lemma dim_broadcastC (x y : Dimension) : dim_broadcast x y = dim_broadcast y x.
Proof.
case: x y => [x|] [y|] //=.
case: (altP (x =P 1%N)) => [Ex|Hx]; case: (altP (y =P 1%N)) => [Ey|Hy];
  rewrite ?Ex ?Ey //.
by rewrite eq_sym; case: (altP (y =P x)) => [->|].
Qed.

Lemma dims_broadcastC (d1 d2 : seq Dimension) :
  dims_broadcast d1 d2 = dims_broadcast d2 d1.
Proof.
elim: d1 d2 => [|x d1 IH] [|y d2] //=.
by rewrite dim_broadcastC IH.
Qed.

Lemma broadcast_shapeC (s1 s2 : TensorShape) :
  broadcast_shape s1 s2 = broadcast_shape s2 s1.
Proof. by case: s1 s2 => [d1|] [d2|] //=; rewrite maxnC dims_broadcastC. Qed.

Lemma is_compatible_withC (s1 s2 : TensorShape) :
  is_compatible_with s1 s2 = is_compatible_with s2 s1.
Proof.
case: s1 s2 => [d1|] [d2|] //=; rewrite eq_sym; congr (_ && _).
elim: d1 d2 => [|x d1 IH] [|y d2] //=; rewrite IH; congr (_ && _).
by case: x y => [x|] [y|] //=; rewrite eq_sym.
Qed.

Lemma rps_arrayC sh d a b :
  has_shape sh a -> has_shape sh b -> (d < size sh)%N ->
  rps_array d a b = rps_array d b a.
Proof.
move=> Ha Hb Hd.
apply: (nd_ext (rps_array_shape Ha Hb Hd) (rps_array_shape Hb Ha Hd)).
move=> idx Hidx; rewrite (rps_array_at Ha Hb) // (rps_array_at Hb Ha) //.
have Sa := size_slice Ha Hd Hidx; have Sb := size_slice Hb Hd Hidx.
by rewrite !rps1_RPS ?Sa ?Sb // RPS_sym // Sa Sb.
Qed.

(** What the call computes on two tensors of one shape, with the static
    shape of the result written out. *)
Lemma rps_run_static p t dim sh :
  tensor_has_shape sh p -> tensor_has_shape sh t ->
  miq.ranked_probability_score p t dim =
  if normalize_axis (size sh) dim is Some d then
    if dtypes_agree p t then
      if broadcast_shape (static_shape p) (static_shape t) is Some s then
        Ok (mkTensor (dtype p) (remove_axis d s)
              (rps_array d (value p) (value t)))
      else Raise (ValueError "Dimensions must be equal")
    else Raise (TypeError "Input 'y' of 'Sub' Op has a type that does not match argument 'x'")
  else Raise (InvalidArgumentError "ScanOp: scan axis out of range").
Proof.
move=> /andP[Hp Sp] /andP[Ht St].
have Hc := conforms_compatible Sp St.
rewrite /miq.ranked_probability_score /convert_to_tensor /get_shape Hc /=.
set t' := (if _ then _ else t).
have Vt' : value t' = value t by rewrite /t'; case: ifP.
have St' : static_shape t' = static_shape t by rewrite /t'; case: ifP.
have Dt' : DType_eqb (dtype p) (dtype t') = dtypes_agree p t.
  rewrite /t' /dtypes_agree; case: ifP => /= [_|]; last by rewrite orbF.
  by rewrite DType_eqb_refl orbT.
rewrite /cumsum (has_shape_rank Hp) Vt' (has_shape_rank Ht).
case Hd: (normalize_axis (size sh) dim) => [d|] //=.
rewrite /subtract /= Dt' St'; case: (dtypes_agree p t) => //=.
case: (broadcast_shape _ _) => //= s.
have Hcp := has_shape_cumsum d Hp; have Hct := has_shape_cumsum d Ht.
rewrite (nd_broadcast_same _ Hcp Hct) /= /reduce_sum /=.
have Hz := has_shape_map (fun x => x ^+ 2)
             (has_shape_zip (fun x y => x - y) Hcp Hct).
by rewrite (has_shape_rank Hz) Hd.
Qed.


Lemma normalize_axis_neg n d :
  (d < n)%N -> normalize_axis n (d%:Z - n%:Z) = Some d.
Proof.
move=> Hd.
have -> : d%:Z - n%:Z = Negz (n - d).-1.
  by rewrite NegzE prednK ?subn_gt0 // -subzn ?opprB // ltnW.
by rewrite /= prednK ?subn_gt0 // leq_subr subKn // ltnW.
Qed.

Lemma dims_broadcast_conforms (d1 d2 ds : seq Dimension) sh :
  is_compatible_with (Some d1) (known_shape sh) ->
  is_compatible_with (Some d2) (known_shape sh) ->
  dims_broadcast d1 d2 = Some ds ->
  is_compatible_with (Some ds) (known_shape sh).
Proof.
rewrite /known_shape /= !size_map.
elim: d1 d2 ds sh => [|x d1 IH] [|y d2] ds [|n sh] //=.
  by move=> _ _ [<-].
rewrite !eqSS => /andP[S1 /andP[Hx A1]] /andP[S2 /andP[Hy A2]].
case Exy: (dim_broadcast x y) => [c|] //.
case Ed: (dims_broadcast d1 d2) => [ds'|] //= [<-] /=.
have S1A1 : (size d1 == size sh) && all (fun xy : Dimension * Dimension =>
    dim_is_compatible_with xy.1 xy.2) (zip d1 [seq Some i | i <- sh]).
  by rewrite S1.
have S2A2 : (size d2 == size sh) && all (fun xy : Dimension * Dimension =>
    dim_is_compatible_with xy.1 xy.2) (zip d2 [seq Some i | i <- sh]).
  by rewrite S2.
have /andP[Hs Ha] := IH _ _ _ S1A1 S2A2 Ed.
rewrite eqSS Hs Ha andbT /=.
case: x y Hx Hy Exy => [x|] [y|] /=.
- move=> /eqP-> /eqP->; rewrite eqxx.
  by case: ifP => _; [case=> <- /= | case: ifP => _; case=> <- /=].
- by move=> /eqP-> _; case: ifP => _ [<-] /=.
- by move=> _ /eqP->; case: ifP => _ [<-] /=.
by move=> _ _ [<-].
Qed.

Lemma broadcast_conforms (s1 s2 s : TensorShape) sh :
  conforms s1 sh -> conforms s2 sh -> broadcast_shape s1 s2 = Some s ->
  conforms s sh.
Proof.
case: s1 s2 => [d1|] [d2|] /=; try by move=> _ _ [<-].
move=> H1 H2.
have /andP[/eqP E1 _] := H1; have /andP[/eqP E2 _] := H2.
rewrite /pad_dims E1 E2 maxnn subnn /=.
case E: (dims_broadcast d1 d2) => [ds|] //= [<-].
exact: dims_broadcast_conforms H1 H2 E.
Qed.

Lemma all_zip_take (A B : Type) (P : pred (A * B)) (s : seq A) (u : seq B) d :
  all P (zip s u) -> all P (zip (take d s) (take d u)).
Proof.
elim: d s u => [|d IH] [|x s] [|y u] //=.
by case/andP=> -> /IH.
Qed.

Lemma all_zip_drop (A B : Type) (P : pred (A * B)) (s : seq A) (u : seq B) d :
  all P (zip s u) -> all P (zip (drop d s) (drop d u)).
Proof.
elim: d s u => [|d IH] [|x s] [|y u] //=.
- by case: (drop d u).
- by case: (drop d s).
by case/andP=> _ /IH.
Qed.

Lemma remove_axis_conforms (s : TensorShape) sh d :
  conforms s sh -> conforms (remove_axis d s) (shape_without d sh).
Proof.
case: s => [ds|] //=; rewrite /conforms /known_shape /shape_without /=.
rewrite !size_map => /andP[/eqP E A].
rewrite map_cat map_take map_drop !size_cat !size_take !size_drop E eqxx /=.
have Hs : size (take d ds) = size (take d [seq Some i | i <- sh]).
  by rewrite !size_take size_map E.
by rewrite zip_cat // all_cat all_zip_take ?all_zip_drop.
Qed.


(** Further property X5.  For two tensors of one shape and one dtype the
    call does not depend on which of them is passed as the predictions: both
    orders give the same result, or the same error. *)
Theorem rps_symmetric_in_its_arguments p t dim sh :
  tensor_has_shape sh p -> tensor_has_shape sh t -> dtype p = dtype t ->
  miq.ranked_probability_score t p dim = miq.ranked_probability_score p t dim.
Proof.
move=> Hp Ht Hd; rewrite (rps_run_static dim Hp Ht) (rps_run_static dim Ht Hp).
case E: (normalize_axis _ _) => [d|] //.
rewrite /dtypes_agree Hd DType_eqb_refl /= broadcast_shapeC.
case: (broadcast_shape _ _) => // s.
case/andP: Hp => Hp _; case/andP: Ht => Ht _.
by rewrite (rps_arrayC Hp Ht (normalize_axis_lt E)).
Qed.

(** Further property X1.  For two tensors of one shape the call returns
    exactly when the dtypes agree (equal, or floating predictions with
    integer targets) and [dim] lies between minus the rank and the rank,
    the rank excluded. *)
Theorem rps_returns_iff p t dim sh :
  tensor_has_shape sh p -> tensor_has_shape sh t ->
  is_ok (miq.ranked_probability_score p t dim)
  = [&& dtypes_agree p t, - (size sh)%:Z <= dim & dim < (size sh)%:Z].
Proof.
move=> Hp Ht; rewrite (rps_run_static dim Hp Ht) -normalize_axis_range.
case: (normalize_axis _ _) => [d|]; last by rewrite andbF.
rewrite andbT; case: (dtypes_agree p t) => //.
case/andP: Hp => _ Sp; case/andP: Ht => _ St.
by case: (broadcast_shape _ _) (compatible_broadcast (conforms_compatible Sp St)).
Qed.

(** Further property X3.  What the call returns on two tensors of one shape
    is again a well-formed tensor: its value has the shape of the inputs
    without the class dimension, its static shape admits that shape, and its
    dtype is that of the predictions. *)
Theorem rps_result_is_well_formed p t dim sh d r :
  tensor_has_shape sh p -> tensor_has_shape sh t ->
  normalize_axis (size sh) dim = Some d ->
  miq.ranked_probability_score p t dim = Ok r ->
  tensor_has_shape (shape_without d sh) r /\ dtype r = dtype p.
Proof.
move=> Hp Ht Hd; rewrite (rps_run_static dim Hp Ht) Hd.
case: (dtypes_agree p t) => //.
case/andP: Hp => Hp Sp; case/andP: Ht => Ht St.
case E: (broadcast_shape _ _) => [s|] // [<-]; split=> //.
rewrite /tensor_has_shape /= (rps_array_shape Hp Ht (normalize_axis_lt Hd)) /=.
exact: remove_axis_conforms (broadcast_conforms Sp St E).
Qed.

(** Further property X4.  A negative [dim] counts from the last dimension:
    for tensors of rank [n] and [d < n], the call with [dim = d - n] is the
    call with [dim = d], in its result as in its errors. *)
Theorem rps_negative_dim_counts_from_the_end p t sh d :
  tensor_has_shape sh p -> tensor_has_shape sh t -> (d < size sh)%N ->
  miq.ranked_probability_score p t (d%:Z - (size sh)%:Z)
  = miq.ranked_probability_score p t d%:Z.
Proof.
move=> Hp Ht Hd; rewrite !(rps_run_static _ Hp Ht) normalize_axis_neg //=.
by rewrite Hd.
Qed.

(** Further property X2.  Whatever the arguments, a call that returns had
    static shapes that are compatible, dtypes that agree and a [dim] that is
    an axis of both values; its result has the dtype of the predictions.
    Integer predictions are thus never coerced to floating-point targets. *)
Theorem rps_returns_only_if p t dim r :
  miq.ranked_probability_score p t dim = Ok r ->
  [/\ is_compatible_with (get_shape p) (get_shape t),
      dtypes_agree p t,
      - (nd_rank (value p))%:Z <= dim < (nd_rank (value p))%:Z,
      - (nd_rank (value t))%:Z <= dim < (nd_rank (value t))%:Z
    & dtype r = dtype p].
Proof.
move=> H; have Hdt := rps_dtype H; move: H.
rewrite /miq.ranked_probability_score /convert_to_tensor.
case Hc: (is_compatible_with _ _) => //=.
set t' := (if _ then _ else t).
have Vt' : value t' = value t by rewrite /t'; case: ifP.
have Dt' : DType_eqb (dtype p) (dtype t') = dtypes_agree p t.
  rewrite /t' /dtypes_agree; case: ifP => /= [_|]; last by rewrite orbF.
  by rewrite DType_eqb_refl orbT.
rewrite /cumsum Vt' -!normalize_axis_range.
case: (normalize_axis _ _) => [d|] //=.
case: (normalize_axis _ _) => [d'|] //=.
by rewrite /subtract /= Dt'; case: (dtypes_agree p t).
Qed.

(** Further property X6.  For two tensors whose static shapes are fully
    known the shape check is an equality test: the call raises its
    ValueError exactly when the two shapes differ, whatever the values, the
    dtypes and [dim]. *)
Theorem rps_known_shapes_must_be_equal dp dt sp st (vp vt : ndarray R) dim :
  miq.ranked_probability_score
    (mkTensor dp (known_shape sp) vp) (mkTensor dt (known_shape st) vt) dim
  = Raise shape_error
  <-> sp <> st.
Proof.
split.
  move=> H E; apply: (rps_compatible (p := mkTensor dp (known_shape sp) vp)
                        (t := mkTensor dt (known_shape st) vt) (dim := dim)) => //.
  by rewrite /get_shape known_shape_compatible E.
move=> /eqP Hne.
have Hc : is_compatible_with (get_shape (mkTensor dp (known_shape sp) vp))
            (get_shape (mkTensor dt (known_shape st) vt)) = false.
  by rewrite /get_shape known_shape_compatible (negbTE Hne).
by rewrite /miq.ranked_probability_score /convert_to_tensor Hc.
Qed.

End MoreScore.

Section Boundary.
Variable R : realFieldType.
Import tf.
Implicit Types (p t r : Tensor R) (sh idx : seq nat).


End Boundary.

Section Broadcasting.
Variable R : realFieldType.
Import tf.

Lemma scanl_Scalar (x : R) s :
  scanl (nd_zip +%R) (Scalar x) (map (@Scalar R) s)
  = map (@Scalar R) (scanl +%R x s).
Proof. by elim: s x => [|y s IH] x //=; rewrite IH. Qed.

Lemma foldl_Scalar (x : R) s :
  foldl (nd_zip +%R) (Scalar x) (map (@Scalar R) s) = Scalar (foldl +%R x s).
Proof. by elim: s x => [|y s IH] x //=; rewrite IH. Qed.

Lemma nd_cumsum_vector (s : seq R) :
  nd_cumsum 0 (Array (map (@Scalar R) s)) = Array (map (@Scalar R) (cumsum1 s)).
Proof. by case: s => [|x s] //=; rewrite scanl_Scalar. Qed.

Lemma nd_reduce_sum_vector (s : seq R) :
  nd_reduce_sum 0 (Array (map (@Scalar R) s)) = Scalar (sum1 s).
Proof. by case: s => [|x s] //=; rewrite foldl_Scalar. Qed.

Lemma nd_rank_vector (s : seq R) : nd_rank (Array (map (@Scalar R) s)) = 1%N.
Proof. by case: s. Qed.

Lemma oseq_bcast_Scalar f (a : R) s :
  oseq [seq nd_bcast f (Scalar a) y | y <- map (@Scalar R) s]
  = Some (map (@Scalar R) (map (f a) s)).
Proof. by elim: s => [|y s IH] //=; rewrite IH. Qed.

Lemma nd_broadcast_one f (a : R) s :
  nd_broadcast f (Array [:: Scalar a]) (Array (map (@Scalar R) s))
  = Some (Array (map (@Scalar R) (map (f a) s))).
Proof.
rewrite /nd_broadcast nd_rank_vector /= /nd_expand /=.
case: s => [|y [|z s]] //=.
by rewrite (oseq_bcast_Scalar f a s).
Qed.

Lemma cumsum_vector dt s (ts : seq R) :
  cumsum (mkTensor dt s (Array (map (@Scalar R) ts))) 0
  = Ok (mkTensor dt s (Array (map (@Scalar R) (cumsum1 ts)))).
Proof. by rewrite /cumsum nd_rank_vector -nd_cumsum_vector. Qed.

Lemma reduce_sum_vector dt s (ts : seq R) :
  reduce_sum (mkTensor dt s (Array (map (@Scalar R) ts))) 0
  = Ok (mkTensor dt (remove_axis 0 s) (Scalar (sum1 ts))).
Proof. by rewrite /reduce_sum nd_rank_vector -nd_reduce_sum_vector. Qed.

Lemma subtract_one dt (a : R) (ts : seq R) :
  subtract (mkTensor dt (Some [:: None]) (Array [:: Scalar a]))
           (mkTensor dt (Some [:: None]) (Array (map (@Scalar R) ts)))
  = Ok (mkTensor dt (Some [:: None])
          (Array (map (@Scalar R) (map (fun x => a - x) ts)))).
Proof.
by rewrite /subtract [dtype _]/= DType_eqb_refl [value _]/= [value _]/=
     nd_broadcast_one.
Qed.


End Broadcasting.

Section Regret.
Variable R : realFieldType.
Import tf.

(** Further property X9.  What a wrong forecast costs.  When the class is
    drawn from [q] (entries summing to 1), the expected score of a prediction
    [p] exceeds the expected score of [q] itself by exactly the score that
    the call returns for [p] against [q]. *)
Theorem rps_regret_is_the_score (q p : seq R) :
  \sum_(x <- q) x = 1 -> size p = size q ->
  let K := size q in
  let E x := \sum_(0 <= i < K) nth 0 q i *
      score_of (miq.ranked_probability_score
                  (constant float32 x) (constant float32 (one_hot R K i)) 0) in
  E p = E q + score_of (miq.ranked_probability_score
                          (constant float32 p) (constant float32 q) 0).
Proof.
move=> Hsum Hsz K E.
have HE x : size x = K -> E x = expected_RPS q x.
  move=> Hx; rewrite /E /expected_RPS; apply: eq_bigr => i _.
  have Hs : size x = size (one_hot R K i) by rewrite size_one_hot.
  by have [s ->] := @rps_constant R float32 float32 x (one_hot R K i) Hs isT.
have [s -> /=] := @rps_constant R float32 float32 p q Hsz isT.
by rewrite !HE // (expected_RPS_decomp Hsum Hsz) addrC.
Qed.

End Regret.

Section MoreLoss.
Variable R : realFieldType.
Variables exp ln : R -> R.
Import tf.
Implicit Types (g : graph R) (logits labels : Tensor R).

Lemma softmax1_distribution (s : seq R) :
  (forall x, 0 < exp x) -> (0 < size s)%N ->
  is_distribution (nn.softmax1 exp s).
Proof.
move=> Hexp Hs; rewrite /nn.softmax1 /=.
set e := [seq exp x | x <- s].
have He : all (fun x => 0 < x) e by rewrite all_map; apply/allP => x _ /=.
have Hsum : 0 < foldr +%R 0 e.
  have : (0 < size e)%N by rewrite size_map.
  case: e He => [|x e] //= /andP[Hx He] _.
  apply: ltr_wpDr => //; elim: e He => [|y e IH] //= /andP[Hy He].
  by apply: addr_ge0; [apply: ltW | apply: IH].
apply/andP; split.
  rewrite all_map; apply/allP => x /(allP He) /= Hx.
  by rewrite divr_ge0 // ltW.
rewrite big_map -mulr_suml.
by rewrite foldrE divff // gt_eqF // -foldrE.
Qed.


(** Further property X10.  [add_loss] leaves the layers and the log of the
    graph alone.  When it returns it has added exactly one loss, a scalar of
    the dtype of the logits, after the losses already there; when it raises
    the graph is unchanged. *)
Theorem add_loss_registers_one_scalar_or_nothing logits labels flag g :
  match miq.add_loss exp ln logits labels flag g with
  | (Ok _, g') =>
      exists x, g' = mkGraph (layers g)
                       (rcons (losses g)
                          (mkTensor (dtype logits) (known_shape [::]) (Scalar x)))
                       (log g)
  | (Raise _, g') => g' = g
  end.
Proof.
rewrite /miq.add_loss; case: flag => /=.
  rewrite /bind /lift; case E: (nn.softmax exp logits) => [probs|] //=.
  case E': (miq.ranked_probability_score _ _ _) => [loss|] //=.
  rewrite /add_to_losses /reduce_mean (rps_dtype E'); eexists.
  by move: E; rewrite /nn.softmax; case: ifP => // _; case: (nd_rank _) => // n [<-].
rewrite /slim.softmax_cross_entropy; case: ifP => //= _.
rewrite /bind /lift.
case E: (nn.softmax_cross_entropy_with_logits _ _ _ _) => [loss|] //=.
rewrite /reduce_mean; eexists; congr (mkGraph _ (rcons _ (mkTensor _ _ _)) _).
move: E; rewrite /nn.softmax_cross_entropy_with_logits.
do 2![case: ifP => // _]; case: (nd_rank _) => [|n] //.
by case: (nd_broadcast _ _ _) => // v [<-].
Qed.

(** Further property X11.  For logits and labels of one shape [[B, K]],
    [add_loss] returns exactly when the logits are floating-point and, with
    [use_rank_loss], the labels are integers or of the dtype of the logits:
    the cross-entropy casts labels of any dtype, the rank loss does not. *)
Theorem add_loss_returns_iff logits labels B K flag g :
  tensor_has_shape [:: B; K] logits -> tensor_has_shape [:: B; K] labels ->
  is_ok (miq.add_loss exp ln logits labels flag g).1
  = is_floating (dtype logits) && (flag ==> dtypes_agree logits labels).
Proof.
move=> Hl Hy; rewrite /miq.add_loss; case: flag => /=.
  rewrite /bind /lift; case Hf: (is_floating (dtype logits)); last first.
    by rewrite /nn.softmax Hf.
  rewrite (softmax_run exp Hl Hf) /=.
  set probs := mkTensor _ _ _.
  have Hprobs : tensor_has_shape [:: B; K] probs.
    case/andP: (Hl) => Hv Hs; apply/andP; split=> //.
    exact: has_shape_softmax.
  have [s] := rps_run Hprobs Hy normalize_axis_2_1.
  rewrite /dtypes_agree /= -/(dtypes_agree logits labels) => ->.
  by case: (dtypes_agree logits labels).
rewrite ?implyFb ?andbT.
case/andP: Hl => Hl Sl; case/andP: Hy => Hy Sy.
rewrite /slim.softmax_cross_entropy /get_shape (conforms_compatible Sl Sy) /=.
rewrite /bind /lift /nn.softmax_cross_entropy_with_logits /=.
case: (is_floating (dtype logits)) => //=.
rewrite DType_eqb_refl /= (has_shape_rank Hl) /=.
by rewrite (nd_broadcast_same _ Hy (has_shape_softmax exp Hl)).
Qed.

(** Further property X12.  With a positive exponential, a batch that is not
    empty, at least one class and rows of labels that are distributions,
    the rank loss that [add_loss] registers lies between 0 and [K - 1]: the
    softmax hands [ranked_probability_score] a distribution in every row. *)
Theorem rank_loss_is_bounded logits labels B K g :
  (forall x, 0 < exp x) ->
  tensor_has_shape [:: B; K] logits -> tensor_has_shape [:: B; K] labels ->
  is_floating (dtype logits) -> dtypes_agree logits labels ->
  (0 < B)%N -> (0 < K)%N ->
  (forall b, (b < B)%N -> is_distribution (row b labels)) ->
  exists2 x,
    miq.add_loss exp ln logits labels true g
    = (Ok tt, mkGraph (layers g)
                (rcons (losses g)
                   (mkTensor (dtype logits) (known_shape [::]) (Scalar x)))
                (log g))
    & 0 <= x <= K%:R - 1.
Proof.
move=> Hexp Hl Hy Hf Hd HB HK Hdist.
rewrite /miq.add_loss /= /bind /lift (softmax_run exp Hl Hf).
set probs := mkTensor _ _ _.
have Hprobs : tensor_has_shape [:: B; K] probs.
  case/andP: (Hl) => Hv Hs; apply/andP; split=> //.
  exact: has_shape_softmax.
have [s] := rps_run Hprobs Hy normalize_axis_2_1.
rewrite /dtypes_agree /= -/(dtypes_agree logits labels) Hd => ->.
rewrite /add_to_losses /reduce_mean /=.
case/andP: Hl => Hl _; case/andP: Hy => Hy _.
rewrite (mean_rps exp Hl Hy); eexists; first by [].
have HB0 : 0 < B%:R :> R by rewrite ltr0n.
have Hrow b : (b < B)%N ->
    0 <= RPS (nn.softmax1 exp (nd_slice 1 (value logits) [:: b]))
             (nd_slice 1 (value labels) [:: b]) <= K%:R - 1.
  move=> Hb; rewrite RPS_ge0 /=.
  have Hidx : valid_index (shape_without 1 [:: B; K]) [:: b] by rewrite /= Hb.
  have Sl : size (nd_slice 1 (value logits) [:: b]) = K.
    exact: (size_slice Hl (isT : (1 < size [:: B; K])%N) Hidx).
  have Sy : size (nd_slice 1 (value labels) [:: b]) = K.
    exact: (size_slice Hy (isT : (1 < size [:: B; K])%N) Hidx).
  have Ss : size (nn.softmax1 exp (nd_slice 1 (value logits) [:: b])) = K.
    by rewrite /nn.softmax1 !size_map.
  rewrite -[X in X%:R]Ss; apply: RPS_le; rewrite ?Ss ?Sy //; last exact: Hdist.
  by apply: softmax1_distribution; rewrite ?Sl.
apply/andP; split.
  apply: divr_ge0; last exact: ltW.
  by rewrite big_nat; apply: sumr_ge0 => b /andP[_ /Hrow/andP[]].
rewrite ler_pdivrMr // mulr_natr -[X in _ *+ X]subn0 -sumr_const_nat.
by rewrite big_nat [X in _ <= X]big_nat; apply: ler_sum => b /andP[_ /Hrow/andP[]].
Qed.

End MoreLoss.

Section MoreModel.
Variable R : realFieldType.
Variable apply_layer : tf.layer -> tf.ndarray R -> tf.ndarray R.
Import tf.
Implicit Types (g : graph R) (x : Tensor R) (l : layer) (s : TensorShape).

Lemma model_run_layers images num_classes is_training rate :
  miq.model apply_layer images num_classes is_training rate
  = run_layers apply_layer (layer_stack num_classes is_training rate) images.
Proof. by []. Qed.

Lemma run_layers_effects ls x g :
  [/\ losses (run_layers apply_layer ls x g).2 = losses g,
      log (run_layers apply_layer ls x g).2 = log g
    & exists2 n,
        layers (run_layers apply_layer ls x g).2 = layers g ++ take n ls
        & is_ok (run_layers apply_layer ls x g).1 = (n == size ls)].
Proof.
elim: ls x g => [|l ls IH] x g /=.
  by split=> //; exists 0%N; rewrite ?cats0.
rewrite /bind /slim.call_layer.
case: ifP => _ /=; first by split=> //; exists 0%N; rewrite ?cats0.
rewrite /bind /lift; case: (slim.layer_shape _ _) => [s|e] /=; last first.
  by split=> //; exists 0%N; rewrite ?cats0.
set y := mkTensor _ _ _; set g1 := mkGraph _ _ _.
have [-> -> [n Hn Hok]] := IH y g1; split=> //.
by exists n.+1; rewrite ?Hn ?Hok //= -cats1 -catA.
Qed.

Lemma run_layers_ok ls x g :
  is_ok (run_layers apply_layer ls x g).1
  = is_ok (stack_shape ls (static_shape x))
    && (has (@slim.has_variables) ls ==> is_floating (dtype x)).
Proof.
elim: ls x g => [|l ls IH] x g //=.
rewrite /bind /slim.call_layer.
case Hv: (slim.has_variables l); case Hf: (is_floating (dtype x)) => /=;
  rewrite ?andbF ?andbT ?implybT ?implybF //;
  rewrite /bind /lift; case: (slim.layer_shape _ _) => [s|e] //=;
  by rewrite IH /= Hf ?implybT ?andbT.
Qed.


Lemma stack_shape_pooled num_classes is_training rate b h w c :
  is_ok (stack_shape (layer_stack num_classes is_training rate)
           (Some [:: b; h; w; Some c]))
  = is_known (pooled_size rate h) && is_known (pooled_size rate w).
Proof.
rewrite /pooled_size /=.
case: (slim.window_size SAME 5 1 1 h) => [h1|?] //=.
case: (slim.window_size SAME 5 1 1 w) => [w1|?] /=; last by rewrite andbF.
case: (slim.window_size VALID 2 1 2 h1) => [h2|?] //=.
case: (slim.window_size VALID 2 1 2 w1) => [w2|?] /=; last by rewrite andbF.
case: (slim.window_size SAME 5 rate 1 h2) => [h3|?] //=.
case: (slim.window_size SAME 5 rate 1 w2) => [w3|?] /=; last by rewrite andbF.
case: (slim.window_size VALID 2 1 2 h3) => [h4|?] //=.
case: (slim.window_size VALID 2 1 2 w3) => [w4|?] /=; last by rewrite andbF.
by case: h4 => [h4|]; case: w4 => [w4|].
Qed.

Lemma rbindE A B (a : A) (k : A -> result B) : rbind (Ok a) k = k a.
Proof. by []. Qed.

Lemma pooled_size_known rate (d : Dimension) :
  is_known (pooled_size rate d) = if d is Some n then (4 <= n)%N else false.
Proof.
case: d => [n|] //; rewrite /pooled_size.
case: n => [|[|[|[|n]]]] //.
have Hp : (2 <= (n.+4 - 2) %/ 2 + 1)%N by apply: pooled_ge2.
rewrite window_same // rbindE window_pool // rbindE.
by rewrite window_same ?(leq_trans _ Hp) // rbindE window_pool.
Qed.

Lemma stack_shape_model num_classes is_training rate s :
  is_ok (stack_shape (layer_stack num_classes is_training rate) s)
  = accepted_image_shape s.
Proof.
case: s => [[|b [|h [|w [|c l]]]]|] //; try by case: h => [?|].
  by case: h => [?|] //; case: w => [?|].
case: l => [|? ?]; last by case: h => [?|] //; case: w => [?|] //; case: c => [?|].
case: c => [c|]; last by case: h => [?|] //; case: w => [?|].
rewrite stack_shape_pooled !pooled_size_known /accepted_image_shape.
by case: h => [h|] //; case: w => [w|] //; rewrite andbF.
Qed.

Lemma miq_model_run images num_classes is_training model_id g :
  miq.miq_model apply_layer images num_classes is_training model_id g
  = if model_id == 0 then
      run_layers apply_layer (layer_stack num_classes is_training 1) images
        (logged (model_id_line model_id) g)
    else if model_id == 1 then
      run_layers apply_layer (layer_stack num_classes is_training 2) images
        (logged (model_id_line model_id) g)
    else (Raise (ValueError
                   ("Unsupported model " ++ string_of_int model_id)%string),
          logged (model_id_line model_id) g).
Proof.
rewrite /miq.miq_model /bind /logging_info /=.
by case: (model_id == 0) => //; case: (model_id == 1).
Qed.



End MoreModel.

(** * The claims on the worked examples *)

Section Witnesses.
Import tf examples.

Lemma ex_pred_shape : tensor_has_shape [:: 3%N] ex_pred.
Proof. by []. Qed.

Lemma ex_target_shape : tensor_has_shape [:: 3%N] ex_target.
Proof. by []. Qed.

Lemma ex_logits_shape : tensor_has_shape [:: 2; 3]%N ex_logits.
Proof. by []. Qed.

Lemma ex_labels_shape : tensor_has_shape [:: 2; 3]%N ex_labels.
Proof. by []. Qed.

Lemma is_distribution_one_hot (R : realFieldType) K i :
  (i < K)%N -> is_distribution (one_hot R K i).
Proof.
move=> Hi; apply/andP; split.
  by rewrite /one_hot all_map; apply/allP => j _ /=; rewrite ler0n.
by rewrite -CDF_size size_one_hot CDF_one_hot // Hi.
Qed.

(** A call on the example batch: the rows [[1,0,0]] against [[1,0,0]] and
    [[0,1,0]] against [[0,0,1]], classes along the last dimension. *)
Lemma ex_rps_run :
  exists s,
    miq.ranked_probability_score ex_logits ex_labels (-1)
    = Ok (mkTensor float32 s
            (rps_array 1 (value ex_logits) (value ex_labels))).
Proof.
by have [s ->] := rps_run ex_logits_shape ex_labels_shape
                    (erefl : normalize_axis 2 (-1) = Some 1%N); exists s.
Qed.

Lemma ex_rps_run_reversed :
  exists s,
    miq.ranked_probability_score (reverse ex_logits 1) (reverse ex_labels 1) (-1)
    = Ok (mkTensor float32 s
            (rps_array 1 (value (reverse ex_logits 1))
                         (value (reverse ex_labels 1)))).
Proof.
have [s ->] := rps_run (tensor_has_shape_reverse 1 ex_logits_shape)
  (tensor_has_shape_reverse 1 ex_labels_shape)
  (erefl : normalize_axis 2 (-1) = Some 1%N).
by exists s.
Qed.

Lemma ex_slice_logits :
  nd_slice 1 (value ex_logits) [:: 1%N] = one_hot rat 3 1.
Proof. by []. Qed.

Lemma ex_slice_labels :
  nd_slice 1 (value ex_labels) [:: 1%N] = one_hot rat 3 2.
Proof. by []. Qed.

Lemma ex_q_distribution : is_distribution ex_q.
Proof. by rewrite /is_distribution /ex_q /= !big_cons big_nil; vm_compute. Qed.




Lemma rps_strictly_proper_witness :
  [/\ is_distribution ex_q, size ex_p = size ex_q
    & is_ok (miq.ranked_probability_score
               (constant float32 ex_p) (constant float32 (one_hot rat 2 1)) 0)].
Proof.
have [H _ _] := @rps_strictly_proper _ ex_q ex_p ex_q_distribution (erefl _).
split; [exact: ex_q_distribution | by [] |].
exact: (H ex_p 1%N (erefl _)).
Defined.



Lemma rps_coerces_integer_targets_witness :
  [/\ is_floating (dtype ex_pred), is_integer (dtype ex_target)
    & miq.ranked_probability_score ex_pred ex_target 0
      = miq.ranked_probability_score ex_pred (cast ex_target float32) 0].
Proof.
have [H _ _] := @rps_coerces_integer_targets _ ex_pred ex_target 0 isT isT.
by split; [| | exact: H].
Defined.



Lemma add_loss_selects_the_loss_witness :
  exists x y,
    miq.add_loss ex_exp ex_ln ex_logits ex_labels true ex_graph
    = (Ok tt, mkGraph [::]
                [:: mkTensor float32 (known_shape [::]) (Scalar x)] [::])
    /\ miq.add_loss ex_exp ex_ln ex_logits ex_labels false ex_graph
       = (Ok tt, mkGraph [::]
                   [:: mkTensor float32 (known_shape [::]) (Scalar y)] [::]).
Proof.
have [H1 H2] := @add_loss_selects_the_loss _ ex_exp ex_ln ex_logits ex_labels
  2 3 ex_graph ex_logits_shape ex_labels_shape isT isT.
have [probs [loss [_ _ E1 E2]]] := H1 isT.
eexists; eexists; split; [rewrite E1 E2; reflexivity | exact: H2].
Defined.

End Witnesses.

(** * The further properties on the worked examples *)

Section FurtherWitnesses.
Import tf examples.

Lemma ex_labels_cast_shape :
  tensor_has_shape [:: 2; 3]%N (cast ex_labels float32).
Proof. by []. Qed.

Lemma ex_exp_positive (x : rat) : 0 < ex_exp x.
Proof. by rewrite /ex_exp ltr_pwDl // -expr2 sqr_ge0. Qed.

Lemma ex_labels_rows b :
  (b < 2)%N -> is_distribution (row b ex_labels).
Proof.
by case: b => [|[|b]] // _;
   rewrite /is_distribution /row /= !big_cons big_nil; vm_compute.
Qed.

Lemma ex_two_classes_run :
  exists s,
    miq.ranked_probability_score
      (constant float32 ex_p) (constant float32 ex_q) 0
    = Ok (mkTensor float32 s (Scalar (RPS ex_p ex_q))).
Proof. exact: (@rps_constant _ float32 float32 ex_p ex_q (erefl _) isT). Qed.

Lemma ex_two_classes_totals :
  \sum_(x <- nd_slice 0 (value (constant float32 ex_p)) [::]) x
  = \sum_(x <- nd_slice 0 (value (constant float32 ex_q)) [::]) x.
Proof. by rewrite /= !big_cons !big_nil; vm_compute. Qed.

Lemma ex_q_total : \sum_(x <- ex_q) x = 1.
Proof. by rewrite /ex_q !big_cons big_nil; vm_compute. Qed.

Lemma rps_returns_iff_witness :
  [/\ tensor_has_shape [:: 2; 3]%N ex_logits,
      tensor_has_shape [:: 2; 3]%N ex_labels
    & is_ok (miq.ranked_probability_score ex_logits ex_labels 5) = false].
Proof.
have H := @rps_returns_iff _ ex_logits ex_labels 5 [:: 2; 3]%N
  ex_logits_shape ex_labels_shape.
split; [exact: ex_logits_shape | exact: ex_labels_shape | by rewrite H].
Defined.

Lemma rps_returns_only_if_witness :
  exists r,
    miq.ranked_probability_score ex_logits ex_labels (-1) = Ok r
    /\ dtype r = float32.
Proof.
have [s Hrun] := ex_rps_run.
have [_ _ _ _ H] := @rps_returns_only_if _ ex_logits ex_labels (-1) _ Hrun.
by eexists; split; [exact: Hrun | exact: H].
Defined.

Lemma rps_result_is_well_formed_witness :
  exists r,
    miq.ranked_probability_score ex_logits ex_labels (-1) = Ok r
    /\ tensor_has_shape [:: 2%N] r.
Proof.
have [s Hrun] := ex_rps_run.
have [H _] := @rps_result_is_well_formed _ ex_logits ex_labels (-1)
  [:: 2; 3]%N 1 _ ex_logits_shape ex_labels_shape (erefl _) Hrun.
by eexists; split; [exact: Hrun | exact: H].
Defined.

Lemma rps_negative_dim_counts_from_the_end_witness :
  miq.ranked_probability_score ex_logits ex_labels (1%:Z - 2%:Z)
  = miq.ranked_probability_score ex_logits ex_labels 1.
Proof.
exact: (@rps_negative_dim_counts_from_the_end _ ex_logits ex_labels
          [:: 2; 3]%N 1 ex_logits_shape ex_labels_shape isT).
Defined.

Lemma rps_symmetric_in_its_arguments_witness :
  miq.ranked_probability_score (cast ex_labels float32) ex_logits (-1)
  = miq.ranked_probability_score ex_logits (cast ex_labels float32) (-1).
Proof.
exact: (@rps_symmetric_in_its_arguments _ ex_logits (cast ex_labels float32)
          (-1) [:: 2; 3]%N ex_logits_shape ex_labels_cast_shape (erefl _)).
Defined.


Lemma rps_regret_is_the_score_witness :
  \sum_(0 <= i < 2) nth 0 ex_q i *
     score_of (miq.ranked_probability_score
                 (constant float32 ex_p)
                 (constant float32 (one_hot rat 2 i)) 0)
  = \sum_(0 <= i < 2) nth 0 ex_q i *
       score_of (miq.ranked_probability_score
                   (constant float32 ex_q)
                   (constant float32 (one_hot rat 2 i)) 0)
    + score_of (miq.ranked_probability_score
                  (constant float32 ex_p) (constant float32 ex_q) 0).
Proof.
exact: (@rps_regret_is_the_score _ ex_q ex_p ex_q_total (erefl _)).
Defined.

Lemma add_loss_returns_iff_witness :
  is_ok (miq.add_loss ex_exp ex_ln ex_logits ex_labels true ex_graph).1
  /\ is_ok (miq.add_loss ex_exp ex_ln ex_logits
              (cast ex_labels float64) true ex_graph).1 = false.
Proof.
have H1 := @add_loss_returns_iff _ ex_exp ex_ln ex_logits ex_labels 2 3 true
  ex_graph ex_logits_shape ex_labels_shape.
have H2 := @add_loss_returns_iff _ ex_exp ex_ln ex_logits
  (cast ex_labels float64) 2 3 true ex_graph ex_logits_shape (erefl _).
by split; [rewrite H1 | rewrite H2].
Defined.

Lemma rank_loss_is_bounded_witness :
  exists2 x,
    miq.add_loss ex_exp ex_ln ex_logits ex_labels true ex_graph
    = (Ok tt, mkGraph [::]
                [:: mkTensor float32 (known_shape [::]) (Scalar x)] [::])
    & 0 <= x <= 3%:R - 1.
Proof.
have [x Hx Hb] := @rank_loss_is_bounded _ ex_exp ex_ln ex_logits ex_labels
  2 3 ex_graph ex_exp_positive ex_logits_shape ex_labels_shape isT isT isT isT
  ex_labels_rows.
by exists x; [exact: Hx | exact: Hb].
Defined.

End FurtherWitnesses.
